(** * people-card-finder.js: a shallow embedding and its properties

    The browser script of src/people-card-finder.js takes a list of person
    names, walks a content tree down to a folder derived from the last name and
    tries four regular expressions of decreasing specificity on the entries of
    that folder.

    Strings.  A JavaScript string is a sequence of UTF-16 code units.  The
    embedding covers the ASCII fragment: a string is a [list ascii] whose
    elements stand for the code units U+0000..U+007F, and the Unicode-aware
    built-ins are given by what they do on that fragment:
      - [toLowerCase] / [toUpperCase] map A-Z to a-z and back;
      - [normalize('NFD')] leaves every ASCII string unchanged;
      - [\p{Diacritic}] holds of exactly two ASCII characters, the circumflex
        U+005E and the grave accent U+0060 (PropList.txt);
      - [\s] and [trim] see TAB, LF, VT, FF, CR and SPACE.
    What is said of a name therefore holds of the names of ASCII
    characters.  The two name helpers are given a second time in the
    module [Wide], on strings of any code units and with the Unicode-aware
    built-ins as parameters; [wide_sanitizeName] and [wide_canonicalKebab]
    show that the two readings agree on the strings of ASCII characters.

    Effects.  The document, the clock and the page's reaction to clicks are
    an explicit [Host]; asynchronous functions are state-passing functions on
    the host's world and an outcome that is a value, a thrown exception, a
    [continue] of the enclosing loop, or the exhaustion of a polling bound.
    Console output is not modelled. *)

From Stdlib Require Import List Ascii String NArith ZArith Bool Arith Lia.
Import ListNotations.

Local Open Scope char_scope.
Local Open Scope list_scope.

(** ** Strings *)

Definition jsstring := list ascii.

(** A string literal of the source. *)
Definition lit (s : string) : jsstring := list_ascii_of_string s.

Definition code (c : ascii) : nat := nat_of_ascii c.

Definition inRange (lo hi c : ascii) : bool :=
  (code lo <=? code c)%nat && (code c <=? code hi)%nat.

Definition isUpperAZ (c : ascii) : bool := inRange "A" "Z" c.
Definition isLowerAZ (c : ascii) : bool := inRange "a" "z" c.
Definition isDigit (c : ascii) : bool := inRange "0" "9" c.
Definition isAsciiLetter (c : ascii) : bool := isUpperAZ c || isLowerAZ c.
Definition isHyphen (c : ascii) : bool := Ascii.eqb c "-".

(** [\s] (and the characters [trim] removes), on ASCII. *)
Definition isWhiteSpace (c : ascii) : bool :=
  inRange "009" "013" c || Ascii.eqb c " ".

(** [\p{Diacritic}], on ASCII. *)
Definition isDiacritic (c : ascii) : bool :=
  Ascii.eqb c "^" || Ascii.eqb c "`".

Definition lowerChar (c : ascii) : ascii :=
  if isUpperAZ c then ascii_of_nat (code c + 32) else c.

Definition upperChar (c : ascii) : ascii :=
  if isLowerAZ c then ascii_of_nat (code c - 32) else c.

Definition toLowerCase (s : jsstring) : jsstring := map lowerChar s.
Definition toUpperCase (s : jsstring) : jsstring := map upperChar s.

(** [s.normalize('NFD')]: no ASCII character has a canonical decomposition. *)
Definition normalizeNFD (s : jsstring) : jsstring := s.

(** [s.replace(/[...]/g, '')] for a one-character class: the characters of
    the class are dropped. *)
Definition removeAll (p : ascii -> bool) (s : jsstring) : jsstring :=
  filter (fun c => negb (p c)) s.

(** [s.replace(/[...]/g, r)] for a one-character class and a one-character
    replacement. *)
Definition replaceEach (p : ascii -> bool) (r : ascii) (s : jsstring) : jsstring :=
  map (fun c => if p c then r else c) s.

(** [s.replace(/X+/g, r)] for a one-character class X: every maximal run of
    X is replaced by [r].  The replacement is emitted at the last character
    of the run. *)
Fixpoint replaceRuns (p : ascii -> bool) (r : ascii) (s : jsstring) : jsstring :=
  match s with
  | [] => []
  | c :: t =>
      if p c then
        match t with
        | d :: _ => if p d then replaceRuns p r t else r :: replaceRuns p r t
        | [] => [r]
        end
      else c :: replaceRuns p r t
  end.

Fixpoint trimStart (s : jsstring) : jsstring :=
  match s with
  | c :: t => if isWhiteSpace c then trimStart t else s
  | [] => []
  end.

Fixpoint trimEnd (s : jsstring) : jsstring :=
  match s with
  | [] => []
  | c :: t =>
      match trimEnd t with
      | [] => if isWhiteSpace c then [] else [c]
      | t' => c :: t'
      end
  end.

Definition trim (s : jsstring) : jsstring := trimEnd (trimStart s).

(** [s.replace(/^-|-$/g, '')]: one hyphen at the start and one hyphen at the
    end are removed.  On "-" the first alternative consumes the only
    character; on "--" both alternatives match once. *)
Definition stripLeadingHyphen (s : jsstring) : jsstring :=
  match s with
  | c :: t => if isHyphen c then t else s
  | [] => []
  end.

Fixpoint stripTrailingHyphen (s : jsstring) : jsstring :=
  match s with
  | [] => []
  | [c] => if isHyphen c then [] else [c]
  | c :: t => c :: stripTrailingHyphen t
  end.

Definition stripEdgeHyphens (s : jsstring) : jsstring :=
  stripTrailingHyphen (stripLeadingHyphen s).

(** [s.split(sep)] for a one-character separator; the empty string splits
    into one empty part. *)
Fixpoint splitBy (p : ascii -> bool) (s : jsstring) : list jsstring :=
  match s with
  | [] => [[]]
  | c :: t =>
      if p c then [] :: splitBy p t
      else match splitBy p t with
           | part :: parts => (c :: part) :: parts
           | [] => [[c]]
           end
  end.

Definition split (sep : ascii) (s : jsstring) : list jsstring :=
  splitBy (Ascii.eqb sep) s.

(** [parts.join(sep)] *)
Fixpoint join (sep : jsstring) (parts : list jsstring) : jsstring :=
  match parts with
  | [] => []
  | [p] => p
  | p :: ps => p ++ sep ++ join sep ps
  end.

(** Comparison of strings by code units, as [<=] on JavaScript strings. *)
Fixpoint strLeb (s t : jsstring) : bool :=
  match s, t with
  | [], _ => true
  | _ :: _, [] => false
  | c :: s', d :: t' =>
      if (code c <? code d)%nat then true
      else if (code d <? code c)%nat then false
      else strLeb s' t'
  end.

Definition strGeb (s t : jsstring) : bool := strLeb t s.

(** [s.includes(sub)] *)
Fixpoint startsWith (sub s : jsstring) : bool :=
  match sub, s with
  | [], _ => true
  | _ :: _, [] => false
  | c :: sub', d :: s' => Ascii.eqb c d && startsWith sub' s'
  end.

Fixpoint includes (s sub : jsstring) : bool :=
  startsWith sub s ||
  match s with
  | [] => false
  | _ :: t => includes t sub
  end.

Definition jsstring_eqb (s t : jsstring) : bool :=
  if list_eq_dec ascii_dec s t then true else false.

(** ** Exceptions and outcomes *)

Inductive exn : Type :=
| Error (msg : jsstring)
| ReferenceError (ident : jsstring)
| TypeError (msg : jsstring)
| SyntaxError (pattern : jsstring).

(** What running a piece of the script amounts to: a value, an exception in
    flight, a [continue] of the enclosing [for] loop, or a polling loop that
    used up its bound of iterations. *)
Inductive outcome (A : Type) : Type :=
| Normal (a : A)
| Thrown (e : exn)
| Continued
| Diverged.

Arguments Normal {A} a.
Arguments Thrown {A} e.
Arguments Continued {A}.
Arguments Diverged {A}.

(** ** Name helpers (lines 31-59) *)

Definition sanitizeName (name : jsstring) : jsstring :=
  trim
    (replaceRuns isWhiteSpace " "
       (replaceEach (fun c => isHyphen c || Ascii.eqb c "_") " "
          (removeAll isDiacritic
             (normalizeNFD
                (toLowerCase name))))).

(** The class [[^a-z0-9\s-]] *)
Definition notKebabInput (c : ascii) : bool :=
  negb (isLowerAZ c || isDigit c || isWhiteSpace c || isHyphen c).

Definition canonicalKebab (s : jsstring) : jsstring :=
  stripEdgeHyphens
    (replaceRuns isHyphen "-"
       (replaceRuns isWhiteSpace "-"
          (removeAll notKebabInput
             (removeAll isDiacritic
                (normalizeNFD
                   (toLowerCase s)))))).

Record personName : Type := { first : jsstring; last : jsstring }.

Definition parsePersonName (full : jsstring) : outcome personName :=
  let s := sanitizeName full in
  let parts := split " " s in
  if (List.length parts <? 2)%nat then
    Thrown (Error (lit "Expected " ++ ["034"] ++ lit "first last" ++ ["034"]
                     ++ lit " but got: " ++ full))
  else
    Normal {| first := hd [] parts; last := join (lit " ") (tl parts) |}.

(** ** Regular expressions

    [new RegExp(pattern, flags)] for the part of the pattern language the
    script's four patterns and [/[A-Z]/] are written in: literal characters,
    [^] and [$], [\d], bracket classes of characters and ranges, and the
    quantifiers [*], [+] and [{n}].  A pattern outside this part is
    reported as a [SyntaxError]; [buildRegex_defined] shows the script never
    builds one. *)

Inductive atom : Type :=
| AChar (c : ascii)
| AClass (ranges : list (ascii * ascii)).

Inductive quant : Type :=
| QOne
| QStar
| QPlus
| QExactly (n : nat).

Inductive term : Type :=
| TBegin
| TEnd
| TAtom (a : atom) (q : quant).

(** An expression keeps the text of its pattern ([re.source]) beside the
    terms the pattern was read as. *)
Record RegExp : Type :=
  { sourceText : jsstring; source : list term; ignoreCase : bool }.

(** The pattern is read left to right; the terms read so far are kept in
    reverse, so that a quantifier finds the atom it applies to on top. *)
Inductive pmode : Type :=
| PNormal
| PEscape
| PClass (raw : list ascii)
| PBrace (digits : list ascii).

Definition pstate : Type := option (pmode * list term).

Definition quantify (q : quant) (acc : list term) : pstate :=
  match acc with
  | TAtom a QOne :: r => Some (PNormal, TAtom a q :: r)
  | _ => None
  end.

Fixpoint classRanges (raw : list ascii) : list (ascii * ascii) :=
  match raw with
  | [] => []
  | a :: r =>
      match r with
      | d :: b :: r' =>
          if isHyphen d then (a, b) :: classRanges r'
          else (a, a) :: classRanges r
      | _ => (a, a) :: classRanges r
      end
  end.

Definition digitValue (c : ascii) : nat := code c - code "0".

Definition decimal (ds : list ascii) : nat :=
  fold_left (fun n c => 10 * n + digitValue c) ds 0.

Definition isSyntaxChar (c : ascii) : bool :=
  existsb (Ascii.eqb c) (lit ".?()|]}/").

Definition pstep (st : pstate) (c : ascii) : pstate :=
  match st with
  | None => None
  | Some (PNormal, acc) =>
      if Ascii.eqb c "^" then Some (PNormal, TBegin :: acc)
      else if Ascii.eqb c "$" then Some (PNormal, TEnd :: acc)
      else if Ascii.eqb c "\" then Some (PEscape, acc)
      else if Ascii.eqb c "[" then Some (PClass [], acc)
      else if Ascii.eqb c "{" then Some (PBrace [], acc)
      else if Ascii.eqb c "*" then quantify QStar acc
      else if Ascii.eqb c "+" then quantify QPlus acc
      else if isSyntaxChar c then None
      else Some (PNormal, TAtom (AChar c) QOne :: acc)
  | Some (PEscape, acc) =>
      if Ascii.eqb c "d" then Some (PNormal, TAtom (AClass [("0", "9")]) QOne :: acc)
      else None
  | Some (PClass raw, acc) =>
      if Ascii.eqb c "]" then
        Some (PNormal, TAtom (AClass (classRanges (rev raw))) QOne :: acc)
      else if Ascii.eqb c "\" || Ascii.eqb c "^" || Ascii.eqb c "[" then None
      else Some (PClass (c :: raw), acc)
  | Some (PBrace ds, acc) =>
      if Ascii.eqb c "}" then
        match ds with
        | [] => None
        | _ => quantify (QExactly (decimal (rev ds))) acc
        end
      else if isDigit c then Some (PBrace (c :: ds), acc)
      else None
  end.

Definition parsePattern (pattern : jsstring) : option (list term) :=
  match fold_left pstep pattern (Some (PNormal, [])) with
  | Some (PNormal, acc) => Some (rev acc)
  | _ => None
  end.

(** [re.source]: the text of the pattern, written so that it can stand
    between two slashes.  The empty pattern is written [(?:)], a line feed
    [\n] and a carriage return [\r]; a slash outside a class is not part of
    the pattern language above. *)
Definition escapeSource (pattern : jsstring) : jsstring :=
  match pattern with
  | [] => lit "(?:)"
  | _ :: _ =>
      flat_map
        (fun c =>
           if Ascii.eqb c "010" then lit "\n"
           else if Ascii.eqb c "013" then lit "\r"
           else [c])
        pattern
  end.

Definition newRegExp (pattern flags : jsstring) : outcome RegExp :=
  match parsePattern pattern with
  | Some ts =>
      Normal {| sourceText := escapeSource pattern;
                source := ts;
                ignoreCase := existsb (Ascii.eqb "i") flags |}
  | None => Thrown (SyntaxError pattern)
  end.

(** [String(re)], which is what [+] makes of an expression: the text of the
    pattern between slashes, then the flags.  The script's expressions have
    the flag [i] or none. *)
Definition regexToString (re : RegExp) : jsstring :=
  lit "/" ++ sourceText re ++ lit "/"
    ++ (if ignoreCase re then lit "i" else []).

(** Canonicalize of the ECMAScript matcher without the [u] flag: under
    [ignoreCase] a character is compared through its upper case. *)
Definition canonicalize (ic : bool) (c : ascii) : ascii :=
  if ic then upperChar c else c.

Definition inRanges (rs : list (ascii * ascii)) (c : ascii) : bool :=
  existsb (fun r => inRange (fst r) (snd r) c) rs.

Definition asciiChars : list ascii := map ascii_of_nat (seq 0 128).

(** A character matches a class when some member of the class has the same
    canonical form. *)
Definition atomMatches (ic : bool) (a : atom) (c : ascii) : bool :=
  match a with
  | AChar d => Ascii.eqb (canonicalize ic d) (canonicalize ic c)
  | AClass rs =>
      existsb
        (fun m => inRanges rs m && Ascii.eqb (canonicalize ic m) (canonicalize ic c))
        asciiChars
  end.

(** The matcher, in continuation style: [k] is what remains to be matched,
    [atStart] tells whether the position is the start of the input.  [test]
    only reports whether some match exists, so the order in which the
    alternatives of a quantifier are tried does not show. *)
Fixpoint repK (ic : bool) (n : nat) (a : atom) (k : bool -> jsstring -> bool)
    (atStart : bool) (s : jsstring) : bool :=
  match n with
  | O => k atStart s
  | S n' =>
      match s with
      | c :: t => atomMatches ic a c && repK ic n' a k false t
      | [] => false
      end
  end.

Fixpoint starK (ic : bool) (a : atom) (k : bool -> jsstring -> bool)
    (atStart : bool) (s : jsstring) : bool :=
  k atStart s ||
  match s with
  | c :: t => atomMatches ic a c && starK ic a k false t
  | [] => false
  end.

Fixpoint matchTerms (ic : bool) (ts : list term) (atStart : bool) (s : jsstring)
    {struct ts} : bool :=
  match ts with
  | [] => true
  | TBegin :: r => atStart && matchTerms ic r atStart s
  | TEnd :: r =>
      match s with
      | [] => matchTerms ic r atStart s
      | _ :: _ => false
      end
  | TAtom a QOne :: r => repK ic 1 a (matchTerms ic r) atStart s
  | TAtom a QStar :: r => starK ic a (matchTerms ic r) atStart s
  | TAtom a QPlus :: r => repK ic 1 a (starK ic a (matchTerms ic r)) atStart s
  | TAtom a (QExactly n) :: r => repK ic n a (matchTerms ic r) atStart s
  end.

Fixpoint searchFrom (ic : bool) (ts : list term) (atStart : bool) (s : jsstring)
    : bool :=
  matchTerms ic ts atStart s ||
  match s with
  | _ :: t => searchFrom ic ts false t
  | [] => false
  end.

(** [regex.test(s)]; none of the script's expressions has the [g] or [y]
    flag, so [lastIndex] plays no part. *)
Definition test (re : RegExp) (s : jsstring) : bool :=
  searchFrom (ignoreCase re) (source re) true s.

(** ** Folder path (lines 81-109) *)

Definition BASE_PATH : list jsstring :=
  [ lit "Redesign Data"; lit "Modules Global Data"; lit "People Cards";
    lit "People Card Data" ].

Record letterAndRange : Type :=
  { letterFolder : jsstring; rangeFolder : jsstring }.

(** [s[i] || dflt]: a missing index is [undefined], a one-character string
    is truthy. *)
Definition charAtOr (s : jsstring) (i : nat) (dflt : jsstring) : jsstring :=
  match nth_error s i with
  | Some c => [c]
  | None => dflt
  end.

(** [/[A-Z]/.test(s)] *)
Definition testUpperAZ (s : jsstring) : bool :=
  match newRegExp (lit "[A-Z]") [] with
  | Normal re => test re s
  | _ => false
  end.

Definition isEmpty (s : jsstring) : bool :=
  match s with
  | [] => true
  | _ :: _ => false
  end.

Definition computeLetterAndRange (last : jsstring) : outcome letterAndRange :=
  let clean := removeAll isHyphen (canonicalKebab last) in
  let firstLetter := toUpperCase (charAtOr clean 0 []) in
  if isEmpty firstLetter || negb (testUpperAZ firstLetter) then
    Thrown (Error (lit "Last name must start with A-Z: " ++ last))
  else
    let secondLetter := toLowerCase (charAtOr clean 1 (lit "a")) in
    let bucket :=
      if strGeb secondLetter (lit "a") && strLeb secondLetter (lit "i") then
        (lit "a", lit "i")
      else if strGeb secondLetter (lit "j") && strLeb secondLetter (lit "r") then
        (lit "j", lit "r")
      else
        (lit "s", lit "z") in
    let bucketStart := fst bucket in
    let bucketEnd := snd bucket in
    Normal {| letterFolder := firstLetter;
              rangeFolder := firstLetter ++ bucketStart ++ lit "-"
                               ++ firstLetter ++ bucketEnd |}.

(** ** The four patterns (lines 111-142) *)

Definition buildExactRegex (last first : jsstring) : outcome RegExp :=
  let lastK := canonicalKebab last in
  let firstK := canonicalKebab first in
  let pattern := lit "^" ++ lastK ++ lit "-" ++ firstK ++ lit "-\d{4}$" in
  newRegExp pattern (lit "i").

Definition buildLastPlusFirstInitialRegex (last first : jsstring) : outcome RegExp :=
  let lastK := canonicalKebab last in
  let firstInitial := charAtOr (canonicalKebab first) 0 [] in
  let pattern :=
    lit "^" ++ lastK ++ lit "-" ++ firstInitial ++ lit "[a-z0-9-]*-\d{4}$" in
  newRegExp pattern (lit "i").

Definition buildLastOnlyRegex (last : jsstring) : outcome RegExp :=
  let lastK := canonicalKebab last in
  let pattern := lit "^" ++ lastK ++ lit "-[a-z0-9-]+-\d{4}$" in
  newRegExp pattern (lit "i").

Definition buildFirstLetterRegex (last : jsstring) : outcome RegExp :=
  let letter := toLowerCase (charAtOr (canonicalKebab last) 0 []) in
  let pattern := lit "^" ++ letter ++ lit "[a-z0-9-]*-\d{4}$" in
  newRegExp pattern (lit "i").

(** ** State and exceptions *)

Definition M (St A : Type) : Type := St -> outcome A * St.

Definition ret {St A : Type} (a : A) : M St A := fun s => (Normal a, s).

Definition throw {St A : Type} (e : exn) : M St A := fun s => (Thrown e, s).

(** [continue] *)
Definition continue {St A : Type} : M St A := fun s => (Continued, s).

Definition bind {St A B : Type} (m : M St A) (k : A -> M St B) : M St B :=
  fun s =>
    match m s with
    | (Normal a, s') => k a s'
    | (Thrown e, s') => (Thrown e, s')
    | (Continued, s') => (Continued, s')
    | (Diverged, s') => (Diverged, s')
    end.

(** [try { m } catch (e) { h e }]: only an exception is caught. *)
Definition tryCatch {St A : Type} (m : M St A) (h : exn -> M St A) : M St A :=
  fun s =>
    match m s with
    | (Thrown e, s') => h e s'
    | r => r
    end.

(** A function that returns or throws without touching the state. *)
Definition liftOutcome {St A : Type} (o : outcome A) : M St A := fun s => (o, s).

Definition gets {St A : Type} (f : St -> A) : M St A := fun s => (Normal (f s), s).

Definition modify {St : Type} (f : St -> St) : M St unit := fun s => (Normal tt, f s).

Declare Scope js_scope.
Delimit Scope js_scope with js.
Notation "x <- m ;; k" := (bind m (fun x => k))
  (at level 61, m at next level, right associativity) : js_scope.
Notation "m ;;; k" := (bind m (fun _ => k))
  (at level 61, right associativity) : js_scope.
Local Open Scope js_scope.

(** ** The host: document, clock and page *)

Record Host : Type := {
  World : Type;
  Elem : Type;
  document : Elem;
  (** [root.querySelectorAll(selector)], in document order *)
  querySelectorAll : jsstring -> Elem -> World -> list Elem;
  textContent : Elem -> World -> jsstring;
  lastElementChild : Elem -> World -> option Elem;
  tagName : Elem -> World -> jsstring;
  parentElement : Elem -> World -> option Elem;
  nextElementSibling : Elem -> World -> option Elem;
  getAttribute : jsstring -> Elem -> World -> option jsstring;
  (** [el.click()]: the page's handlers run and may change the document *)
  click : Elem -> World -> World;
  (** [Date.now()] *)
  now : World -> Z;
  (** the world in which a timer of [ms] milliseconds fires; whatever the
      page did meanwhile is part of it *)
  sleep : Z -> World -> World;
  (** [window.userReady], as a truth value *)
  userReady : World -> bool;
  setUserReady : bool -> World -> World;
  (** a timer does not fire early *)
  sleep_advances : forall ms w, (now w + ms <= now (sleep ms w))%Z
}.

Arguments document {_}.
Arguments querySelectorAll {_}.
Arguments textContent {_}.
Arguments lastElementChild {_}.
Arguments tagName {_}.
Arguments parentElement {_}.
Arguments nextElementSibling {_}.
Arguments getAttribute {_}.
Arguments click {_}.
Arguments now {_}.
Arguments sleep {_}.
Arguments userReady {_}.
Arguments setUserReady {_}.

(** The values a variable of the script may hold, as far as the script
    tells them apart. *)
Inductive jsvalue : Type :=
| VUndefined
| VNull
| VString (s : jsstring)
| VObject.

Definition truthy (v : jsvalue) : bool :=
  match v with
  | VString (_ :: _) => true
  | VObject => true
  | _ => false
  end.

Record person : Type :=
  { name : jsstring; found : bool; headshotImgString : jsvalue }.

(** Lines 24-28: the entry every provided name starts with. *)
Definition newPerson (n : jsstring) : person :=
  {| name := n; found := false; headshotImgString := VNull |}.

Definition setFound (b : bool) (p : person) : person :=
  {| name := name p; found := b; headshotImgString := headshotImgString p |}.

Definition setHeadshotImgString (h : jsvalue) (p : person) : person :=
  {| name := name p; found := found p; headshotImgString := h |}.

Section Script.

Context {H : Host}.

(** [root.querySelector(selector)]: the first element of
    [querySelectorAll]. *)
Definition querySelector (selector : jsstring) (root : Elem H) (w : World H)
    : option (Elem H) :=
  hd_error (querySelectorAll selector root w).

(** *** countdown (lines 61-79) *)

(** The loop [while (!window.userReady && num_waits < 12)], by the number of
    waits left. *)
Fixpoint waitUserReady (waitsLeft : nat) (w : World H) : World H :=
  match waitsLeft with
  | O => w
  | S n => if userReady w then w else waitUserReady n (sleep 5000 w)
  end.

Definition countdown (seconds : nat) : M (World H) unit :=
  if (seconds =? 0)%nat then
    modify (fun w => waitUserReady 12 (setUserReady false w))
  else
    modify (fun w => Nat.iter seconds (sleep 1000) w).

(** *** Tree search (lines 145-232) *)

Definition findNodeExact (nm : jsstring) (searchRoot : Elem H) (w : World H)
    : option (Elem H) :=
  find
    (fun node =>
       let target := sanitizeName nm in
       match querySelector (lit "span") node w with
       | None => false
       | Some span => jsstring_eqb (sanitizeName (textContent span w)) target
       end)
    (querySelectorAll (lit ".scContentTreeNode") searchRoot w).

(** Number of 500 ms waits after which a poll with this timeout has surely
    been rejected: a timer does not fire early.  [waitForMatchExact_settles]
    and [waitForRegex_settles] show the bound is never used up. *)
Definition pollBound (timeout : Z) : nat := Z.to_nat (timeout / 500) + 1.

(** The function [check] inside [waitForMatchExact]. *)
Fixpoint checkMatchExact (polls : nat) (nm : jsstring) (searchRoot : Elem H)
    (timeout start : Z) (w : World H) : outcome (Elem H) * World H :=
  match findNodeExact nm searchRoot w with
  | Some m => (Normal m, w)
  | None =>
      if (now w - start >? timeout)%Z then
        (Thrown (Error (lit "Timeout waiting for " ++ nm)), w)
      else
        match polls with
        | O => (Diverged, w)
        | S polls' =>
            checkMatchExact polls' nm searchRoot timeout start (sleep 500 w)
        end
  end.

Definition waitForMatchExact (nm : jsstring) (searchRoot : Elem H) (timeout : Z)
    : M (World H) (Elem H) :=
  fun w => checkMatchExact (pollBound timeout) nm searchRoot timeout (now w) w.

Definition expand (nm : jsstring) (searchRoot : Elem H) : M (World H) (Elem H) :=
  node <- waitForMatchExact nm searchRoot 5000 ;;
  arrow <- gets (querySelector (lit "img") node) ;;
  match arrow with
  | None => ret node
  | Some arrow =>
      alreadyExpanded <-
        gets (fun w =>
                match lastElementChild node w with
                | Some child => jsstring_eqb (tagName child w) (lit "DIV")
                | None => false
                end) ;;
      if alreadyExpanded : bool then ret node
      else
        modify (click arrow) ;;;
        modify (sleep 250) ;;;
        ret node
  end.

Definition findNodesByRegex (regex : RegExp) (searchRoot : Elem H) (w : World H)
    : list (Elem H) :=
  filter
    (fun node =>
       match querySelector (lit "span") node w with
       | None => false
       | Some span => test regex (trim (textContent span w))
       end)
    (querySelectorAll (lit ".scContentTreeNode") searchRoot w).

(** The function [check] inside [waitForRegex]. *)
Fixpoint checkRegex (polls : nat) (regex : RegExp) (searchRoot : Elem H)
    (timeout start : Z) (w : World H) : outcome (list (Elem H)) * World H :=
  match findNodesByRegex regex searchRoot w with
  | m :: ms => (Normal (m :: ms), w)
  | [] =>
      if (now w - start >? timeout)%Z then
        (Thrown (Error (lit "Timeout waiting for regex: "
                          ++ regexToString regex)),
         w)
      else
        match polls with
        | O => (Diverged, w)
        | S polls' => checkRegex polls' regex searchRoot timeout start (sleep 500 w)
        end
  end.

Definition waitForRegex (regex : RegExp) (searchRoot : Elem H) (timeout : Z)
    : M (World H) (list (Elem H)) :=
  fun w => checkRegex (pollBound timeout) regex searchRoot timeout (now w) w.

(** *** clickFirstRegex (lines 234-249) *)

Definition clickFirstRegex (regex : RegExp) (searchRoot : Elem H) (timeout : Z)
    : M (World H) bool :=
  matches <- waitForRegex regex searchRoot timeout ;;
  match matches with
  | [] => throw (TypeError (lit "node is undefined"))
  | node :: _ =>
      span <- gets (querySelector (lit "span") node) ;;
      match span with
      | Some span =>
          modify (click span) ;;;
          countdown 0 ;;;
          ret true
      | None => ret false
      end
  end.

(** *** getHeadshotImageString (lines 251-270) *)

(** An identifier is read through the bindings in scope; one that no scope
    binds is a ReferenceError. *)
Definition readIdentifier {St : Type} (scope : list (string * jsvalue))
    (x : string) : M St jsvalue :=
  match find (fun b => String.eqb (fst b) x) scope with
  | Some b => ret (snd b)
  | None => throw (ReferenceError (lit x))
  end.

(** The bindings of the script's top-level function, which every helper
    closes over, and the two globals the script creates.  The page is taken
    not to define a global of its own under a name the script reads. *)
Definition closureScope : list (string * jsvalue) :=
  map (fun x => (x, VObject))
    [ "providedNames"; "peopleCardData"; "sanitizeName"; "canonicalKebab";
      "parsePersonName"; "countdown"; "BASE_PATH"; "computeLetterAndRange";
      "buildExactRegex"; "buildLastPlusFirstInitialRegex";
      "buildLastOnlyRegex"; "buildFirstLetterRegex"; "findNodeExact";
      "waitForMatchExact"; "expand"; "findNodesByRegex"; "waitForRegex";
      "clickFirstRegex"; "getHeadshotImageString"; "myDebug";
      "myDebugLevels" ]%string.

Definition optString (o : option jsstring) : jsvalue :=
  match o with
  | Some s => VString s
  | None => VNull
  end.

Definition getHeadshotImageString (searchRoot : Elem H)
    : M (World H) jsvalue :=
  fun w =>
    let targetSpan :=
      find (fun span => includes (textContent span w) (lit "Headshot Image"))
           (querySelectorAll (lit "span") searchRoot w) in
    (* the [const] declarations of the [if] block *)
    let blockScope : list (string * jsvalue) :=
      match targetSpan with
      | Some targetSpan =>
          let parent := parentElement targetSpan w in
          let sibling :=
            match parent with
            | Some p => nextElementSibling p w
            | None => None
            end in
          let input :=
            match sibling with
            | Some s => querySelector (lit "input") s w
            | None => None
            end in
          let val :=
            match input with
            | Some i => optString (getAttribute (lit "value") i w)
            | None => VUndefined
            end in
          [("parent", VObject); ("sibling", VObject); ("input", VObject);
           ("val", val)]%string
      | None => []
      end in
    (* the [return] stands after the block: its scope is the function's *)
    let functionScope : list (string * jsvalue) :=
      [("searchRoot", VObject);
       ("targetSpan", match targetSpan with Some _ => VObject | None => VUndefined end)
      ]%string ++ closureScope in
    bind (readIdentifier functionScope "val")
         (fun val => ret (if truthy val then val else VNull))
         w.

(** *** The loop over the provided names (lines 272-339) *)

Record tierPlan : Type := {
  rangeNode : Elem H;
  exactRe : RegExp;
  lastPlusInitialRe : RegExp;
  lastOnlyRe : RegExp;
  firstLetterRe : RegExp
}.

(** Lines 280-284: the path is expanded name by name, each search scoped to
    the node found before. *)
Fixpoint expandPath (expandNames : list jsstring) (currentSearchRoot : Elem H)
    : M (World H) (Elem H) :=
  match expandNames with
  | [] => ret currentSearchRoot
  | nm :: rest =>
      expandedNode <- expand nm currentSearchRoot ;;
      expandPath rest expandedNode
  end.

(** Lines 274-290: parse the name, compute and expand the path, build the
    four expressions. *)
Definition prepare (nm : jsstring) : M (World H) tierPlan :=
  pn <- liftOutcome (parsePersonName nm) ;;
  lr <- liftOutcome (computeLetterAndRange (last pn)) ;;
  let expandNames := BASE_PATH ++ [letterFolder lr; rangeFolder lr] in
  currentSearchRoot <- expandPath expandNames document ;;
  exactRe <- liftOutcome (buildExactRegex (last pn) (first pn)) ;;
  lastPlusInitialRe <-
    liftOutcome (buildLastPlusFirstInitialRegex (last pn) (first pn)) ;;
  lastOnlyRe <- liftOutcome (buildLastOnlyRegex (last pn)) ;;
  firstLetterRe <- liftOutcome (buildFirstLetterRegex (last pn)) ;;
  ret {| rangeNode := currentSearchRoot;
         exactRe := exactRe;
         lastPlusInitialRe := lastPlusInitialRe;
         lastOnlyRe := lastOnlyRe;
         firstLetterRe := firstLetterRe |}.

(** The loop body runs on the entry of the current person and the world. *)
Definition St : Type := person * World H.

Definition inWorld {A : Type} (m : M (World H) A) : M St A :=
  fun s =>
    let (r, w') := m (snd s) in (r, (fst s, w')).

Definition onPerson (f : person -> person) : M St unit :=
  modify (fun s => (f (fst s), snd s)).

(** Lines 292-302 *)
Definition exactTier (plan : tierPlan) : M St unit :=
  tryCatch
    (clicked <- inWorld (clickFirstRegex (exactRe plan) (rangeNode plan) 3000) ;;
     if clicked : bool then
       onPerson (setFound true) ;;;
       h <- inWorld (getHeadshotImageString (rangeNode plan)) ;;
       onPerson (setHeadshotImgString h) ;;;
       continue
     else ret tt)
    (fun _ => ret tt).

(** Lines 304-333, once per fallback expression *)
Definition fallbackTier (regex : RegExp) (plan : tierPlan) : M St unit :=
  tryCatch
    (clicked <- inWorld (clickFirstRegex regex (rangeNode plan) 2000) ;;
     if clicked : bool then continue else ret tt)
    (fun _ => ret tt).

Definition tryTiers (plan : tierPlan) : M St unit :=
  exactTier plan ;;;
  fallbackTier (lastPlusInitialRe plan) plan ;;;
  fallbackTier (lastOnlyRe plan) plan ;;;
  fallbackTier (firstLetterRe plan) plan.

(** The statements inside the outer [try]. *)
Definition tryBlock : M St unit :=
  nm <- gets (fun s => name (fst s)) ;;
  plan <- inWorld (prepare nm) ;;
  tryTiers plan.

Definition loopBody : M St unit :=
  tryCatch tryBlock (fun _ => ret tt).

(** [for (const person of peopleCardData) { ... }]; the result is the array
    with its entries as the loop left them. *)
Fixpoint forEachPerson (peopleCardData : list person) (w : World H)
    : outcome (list person) * World H :=
  match peopleCardData with
  | [] => (Normal [], w)
  | p :: rest =>
      match loopBody (p, w) with
      | (Normal _, (p', w')) | (Continued, (p', w')) =>
          match forEachPerson rest w' with
          | (Normal out, w'') => (Normal (p' :: out), w'')
          | r => r
          end
      | (Thrown e, (_, w')) => (Thrown e, w')
      | (Diverged, (_, w')) => (Diverged, w')
      end
  end.

(** The script: [None] is the [undefined] of the early return.  In
    [!providedNames.length > 0] the negation binds first, so the test
    compares a boolean with 0. *)
Definition main (providedNames : list jsstring)
    : M (World H) (option (list person)) :=
  if (Z.b2z (List.length providedNames =? 0)%nat >? 0)%Z then ret None
  else
    fun w =>
      let peopleCardData := map newPerson providedNames in
      match forEachPerson peopleCardData w with
      | (Normal out, w') => (Normal (Some out), w')
      | (Thrown e, w') => (Thrown e, w')
      | (Continued, w') => (Continued, w')
      | (Diverged, w') => (Diverged, w')
      end.

End Script.

(** ** A host to run the script on

    A content tree that is a single chain: the n-th entry of [texts] labels
    a tree node whose descendants are the later entries.  Each node holds one
    span with the label and one expand arrow.  The page does not react to
    clicks, the user never signals, and timers fire on time. *)

Module ChainHost.

Definition nodesFrom (texts : list jsstring) (k : nat) : list nat :=
  seq (S k) (List.length texts - k).

Definition select (texts : list jsstring) (selector : jsstring) (root : nat)
    (w : Z) : list nat :=
  if jsstring_eqb selector (lit ".scContentTreeNode") then
    if (root <? 1000)%nat then nodesFrom texts root else []
  else if jsstring_eqb selector (lit "span") then
    if (root =? 0)%nat then map (Nat.add 1000) (nodesFrom texts 0)
    else if (root <? 1000)%nat then map (Nat.add 1000) (nodesFrom texts (root - 1))
    else []
  else if jsstring_eqb selector (lit "img") then
    if (0 <? root)%nat && (root <? 1000)%nat then [2000 + root] else []
  else [].

Definition text (texts : list jsstring) (e : nat) (w : Z) : jsstring :=
  if (1000 <? e)%nat && (e <? 2000)%nat then nth (e - 1001) texts [] else [].

Definition host (texts : list jsstring) : Host :=
  {| World := Z;
     Elem := nat;
     document := 0%nat;
     querySelectorAll := select texts;
     textContent := text texts;
     lastElementChild := fun _ _ => None;
     tagName := fun _ _ => [];
     parentElement := fun _ _ => None;
     nextElementSibling := fun _ _ => None;
     getAttribute := fun _ _ _ => None;
     click := fun _ w => w;
     now := fun w => w;
     sleep := fun ms w => (w + ms)%Z;
     userReady := fun _ => false;
     setUserReady := fun _ w => w;
     sleep_advances := fun ms w => Z.le_refl (w + ms) |}.

(** The path to the folder of the last names S[j-r]..., then the cards. *)
Definition folderS (cards : list jsstring) : list jsstring :=
  BASE_PATH ++ [lit "S"; lit "Sj-Sr"] ++ cards.

(** The folder with the card of Jane Smith, and the same folder empty. *)
Definition smithFolder : Host := host (folderS [lit "smith-jane-1234"]).
Definition emptyFolder : Host := host (folderS []).

End ChainHost.

(** ** Beyond ASCII

    The two name helpers once more, from the same lines 31-48, on strings
    of any UTF-16 code units, a code unit being its number.  What the
    script's own expressions do is written out: the expressions of lines
    36, 37 and 45 to 48 have no [u] flag and look at one code unit at a
    time, and [\s] and [trim] see the WhiteSpace and LineTerminator code
    points of ECMAScript.  The three steps that depend on the Unicode
    tables, [toLowerCase()], [normalize('NFD')] and the removal of
    [\p{Diacritic}], are the fields of a [Unicode].

    [latinWithMarks] gives the three steps by the data of Unicode 14
    (UnicodeData.txt, PropList.txt) on the strings of Basic Latin
    (U+0000..U+007F) and the combining diacritical marks (U+0300..U+036F),
    every code point of which is one code unit:
      - no code point of the two blocks has a lower-case mapping but A-Z;
      - no code point of Basic Latin has a canonical decomposition or a
        combining class other than 0; four marks decompose, U+034F has
        class 0 and the other marks have the classes of
        [combiningClasses];
      - [\p{Diacritic}] holds of U+005E, U+0060, U+0300..U+034E,
        U+0350..U+0357 and U+035D..U+0362.
    [normalize('NFD')] decomposes every code point and then puts every run
    of marks in the order of their classes, marks of one class staying in
    the order they came in. *)

Module Wide.

Definition ustring : Type := list N.

Definition inBlock (lo hi c : N) : bool := (lo <=? c)%N && (c <=? hi)%N.

Definition isLowerAZ (c : N) : bool := inBlock 0x61 0x7A c.
Definition isDigit (c : N) : bool := inBlock 0x30 0x39 c.
Definition isHyphen (c : N) : bool := (c =? 0x2D)%N.

(** [\s], and the code units [trim] removes. *)
Definition isWhiteSpace (c : N) : bool :=
  inBlock 0x9 0xD c || (c =? 0x20)%N || (c =? 0xA0)%N || (c =? 0x1680)%N
  || inBlock 0x2000 0x200A c || (c =? 0x2028)%N || (c =? 0x2029)%N
  || (c =? 0x202F)%N || (c =? 0x205F)%N || (c =? 0x3000)%N || (c =? 0xFEFF)%N.

Record Unicode : Type :=
  { (** [s.toLowerCase()] *)
    toLowerCase : ustring -> ustring;
    (** [s.normalize('NFD')] *)
    normalizeNFD : ustring -> ustring;
    (** [s.replace(/\p{Diacritic}/gu, '')] *)
    removeDiacritics : ustring -> ustring }.

Definition removeAll (p : N -> bool) (s : ustring) : ustring :=
  filter (fun c => negb (p c)) s.

Definition replaceEach (p : N -> bool) (r : N) (s : ustring) : ustring :=
  map (fun c => if p c then r else c) s.

Fixpoint replaceRuns (p : N -> bool) (r : N) (s : ustring) : ustring :=
  match s with
  | [] => []
  | c :: t =>
      if p c then
        match t with
        | d :: _ => if p d then replaceRuns p r t else r :: replaceRuns p r t
        | [] => [r]
        end
      else c :: replaceRuns p r t
  end.

Fixpoint trimStart (s : ustring) : ustring :=
  match s with
  | c :: t => if isWhiteSpace c then trimStart t else s
  | [] => []
  end.

Fixpoint trimEnd (s : ustring) : ustring :=
  match s with
  | [] => []
  | c :: t =>
      match trimEnd t with
      | [] => if isWhiteSpace c then [] else [c]
      | t' => c :: t'
      end
  end.

Definition trim (s : ustring) : ustring := trimEnd (trimStart s).

Definition stripLeadingHyphen (s : ustring) : ustring :=
  match s with
  | c :: t => if isHyphen c then t else s
  | [] => []
  end.

Fixpoint stripTrailingHyphen (s : ustring) : ustring :=
  match s with
  | [] => []
  | [c] => if isHyphen c then [] else [c]
  | c :: t => c :: stripTrailingHyphen t
  end.

Definition stripEdgeHyphens (s : ustring) : ustring :=
  stripTrailingHyphen (stripLeadingHyphen s).

(** Lines 31-38; the underscore is U+005F, the space U+0020. *)
Definition sanitizeName (U : Unicode) (name : ustring) : ustring :=
  trim
    (replaceRuns isWhiteSpace 0x20
       (replaceEach (fun c => isHyphen c || (c =? 0x5F)%N) 0x20
          (removeDiacritics U
             (normalizeNFD U
                (toLowerCase U name))))).

(** The class [[^a-z0-9\s-]] *)
Definition notKebabInput (c : N) : bool :=
  negb (isLowerAZ c || isDigit c || isWhiteSpace c || isHyphen c).

(** Lines 40-48; the hyphen is U+002D. *)
Definition canonicalKebab (U : Unicode) (s : ustring) : ustring :=
  stripEdgeHyphens
    (replaceRuns isHyphen 0x2D
       (replaceRuns isWhiteSpace 0x2D
          (removeAll notKebabInput
             (removeDiacritics U
                (normalizeNFD U
                   (toLowerCase U s)))))).

(** *** Basic Latin and the combining diacritical marks *)

Definition lowerPoint (c : N) : N :=
  if inBlock 0x41 0x5A c then (c + 32)%N else c.

(** Canonical_Combining_Class, by runs of code points: first, last,
    class. *)
Definition combiningClasses : list (N * N * N) :=
  [ (0x300, 0x314, 230); (0x315, 0x315, 232); (0x316, 0x319, 220);
    (0x31A, 0x31A, 232); (0x31B, 0x31B, 216); (0x31C, 0x320, 220);
    (0x321, 0x322, 202); (0x323, 0x326, 220); (0x327, 0x328, 202);
    (0x329, 0x333, 220); (0x334, 0x338, 1); (0x339, 0x33C, 220);
    (0x33D, 0x344, 230); (0x345, 0x345, 240); (0x346, 0x346, 230);
    (0x347, 0x349, 220); (0x34A, 0x34C, 230); (0x34D, 0x34E, 220);
    (0x350, 0x352, 230); (0x353, 0x356, 220); (0x357, 0x357, 230);
    (0x358, 0x358, 232); (0x359, 0x35A, 220); (0x35B, 0x35B, 230);
    (0x35C, 0x35C, 233); (0x35D, 0x35E, 234); (0x35F, 0x35F, 233);
    (0x360, 0x361, 234); (0x362, 0x362, 233); (0x363, 0x36F, 230) ]%N.

Definition combiningClass (c : N) : N :=
  match
    find (fun r => inBlock (fst (fst r)) (snd (fst r)) c) combiningClasses
  with
  | Some r => snd r
  | None => 0%N
  end.

Definition canonicalDecomposition (c : N) : ustring :=
  if (c =? 0x340)%N then [0x300%N]
  else if (c =? 0x341)%N then [0x301%N]
  else if (c =? 0x343)%N then [0x313%N]
  else if (c =? 0x344)%N then [0x308%N; 0x301%N]
  else [c].

(** A mark is put into a run of marks already in order: behind the marks
    of its own class and of the lower ones. *)
Fixpoint insertByClass (c : N) (run : ustring) : ustring :=
  match run with
  | [] => [c]
  | d :: t =>
      if (combiningClass c <? combiningClass d)%N then c :: run
      else d :: insertByClass c t
  end.

(** The canonical ordering: [run] is the run of marks before the rest [s],
    in order; a code point of class 0 ends it. *)
Fixpoint canonicalOrderFrom (run : ustring) (s : ustring) : ustring :=
  match s with
  | [] => run
  | c :: t =>
      if (combiningClass c =? 0)%N then run ++ c :: canonicalOrderFrom [] t
      else canonicalOrderFrom (insertByClass c run) t
  end.

Definition isDiacritic (c : N) : bool :=
  (c =? 0x5E)%N || (c =? 0x60)%N || inBlock 0x300 0x34E c
  || inBlock 0x350 0x357 c || inBlock 0x35D 0x362 c.

Definition latinWithMarks : Unicode :=
  {| toLowerCase := map lowerPoint;
     normalizeNFD :=
       fun s => canonicalOrderFrom [] (flat_map canonicalDecomposition s);
     removeDiacritics := removeAll isDiacritic |}.

(** *** What every [Unicode] does on ASCII *)




End Wide.

(** A string of the ASCII embedding as a string of code units. *)
Definition wide (s : jsstring) : Wide.ustring := map N_of_ascii s.


(** The ASCII characters, U+0000..U+007F, and the strings of them. *)
Definition isAsciiChar (c : ascii) : bool := (code c <? 128)%nat.

Definition isAsciiString (s : jsstring) : bool := forallb isAsciiChar s.

(** ** Shapes of strings *)

Definition headIs (p : ascii -> bool) (s : jsstring) : bool :=
  match s with
  | c :: _ => p c
  | [] => false
  end.

Fixpoint lastIs (p : ascii -> bool) (s : jsstring) : bool :=
  match s with
  | [] => false
  | [c] => p c
  | _ :: t => lastIs p t
  end.

Fixpoint noAdjacent (p : ascii -> bool) (s : jsstring) : bool :=
  match s with
  | [] => true
  | c :: t => negb (p c && headIs p t) && noAdjacent p t
  end.

(** What a character of a sanitized name looks like. *)
Definition sanitizedChar (c : ascii) : bool :=
  Ascii.eqb (lowerChar c) c
  && negb (isDiacritic c)
  && negb (isHyphen c || Ascii.eqb c "_")
  && (negb (isWhiteSpace c) || Ascii.eqb c " ").

(** A sanitized name: words of sanitized characters, one space between
    them, none around them. *)
Definition sanitized (s : jsstring) : Prop :=
  forallb sanitizedChar s = true /\
  noAdjacent isWhiteSpace s = true /\
  headIs isWhiteSpace s = false /\
  lastIs isWhiteSpace s = false.

(** The characters of a canonical kebab string: [[a-z0-9-]]. *)
Definition isKebabChar (c : ascii) : bool :=
  isLowerAZ c || isDigit c || isHyphen c.

(** A canonical kebab string: runs of [[a-z0-9]], one hyphen between
    them, none around them. *)
Definition kebab (s : jsstring) : Prop :=
  forallb isKebabChar s = true /\
  noAdjacent isHyphen s = true /\
  headIs isHyphen s = false /\
  lastIs isHyphen s = false.

(** The whitespace-separated tokens of a string. *)
Definition wsTokens (s : jsstring) : list jsstring :=
  filter (fun part => negb (isEmpty part)) (splitBy isWhiteSpace s).

(** The bucket, as the source computes it from what it finds at index 1. *)
Definition bucketOfSecond (second : option ascii) : jsstring * jsstring :=
  let secondLetter :=
    toLowerCase (match second with Some c => [c] | None => lit "a" end) in
  if strGeb secondLetter (lit "a") && strLeb secondLetter (lit "i") then
    (lit "a", lit "i")
  else if strGeb secondLetter (lit "j") && strLeb secondLetter (lit "r") then
    (lit "j", lit "r")
  else
    (lit "s", lit "z").

(** The terms a run of literal characters is read as. *)
Definition chars (l : jsstring) : list term :=
  map (fun c => TAtom (AChar c) QOne) l.

Definition kebabClass : atom := AClass [("a", "z"); ("0", "9"); ("-", "-")].
Definition digitClass : atom := AClass [("0", "9")].

(** [-\d{4}$] *)
Definition suffixTerms : list term :=
  [TAtom (AChar "-") QOne; TAtom digitClass (QExactly 4); TEnd].

(** What buildLastOnlyRegex makes of the last name Smith:
    [/^smith-[a-z0-9-]+-\d{4}$/i]. *)
Definition lastOnlySmith : RegExp :=
  {| sourceText := lit "^smith-[a-z0-9-]+-\d{4}$";
     source := TBegin :: chars (lit "smith")
                 ++ TAtom (AChar "-") QOne :: TAtom kebabClass QPlus
                      :: suffixTerms;
     ignoreCase := true |}.

(** Equality of strings up to the case of the ASCII letters. *)
Definition eqIgnoreCase (s t : jsstring) : Prop :=
  toLowerCase s = toLowerCase t.

(** An outcome a [try] can deal with: a value or an exception. *)
Definition settled {A : Type} (r : outcome A) : Prop :=
  match r with
  | Normal _ | Thrown _ => True
  | Continued | Diverged => False
  end.

(** A computation that settles from every state. *)
Definition settles {St A : Type} (m : M St A) : Prop :=
  forall s, settled (fst (m s)).

(** What a pass through a tier leaves behind: the loop goes on to the next
    statement or to the next person. *)
Definition goesOn (o : outcome unit) : Prop := o = Normal tt \/ o = Continued.

(** Case analysis on the eight bits of a character. *)
Ltac each_char c := destruct c as [[] [] [] [] [] [] [] []].

(** [run t k] evaluates the closed term [t] to [v], proves [E : t = v] and
    goes on with [k v E]. *)
Ltac run t k :=
  let v := eval vm_compute in t in
  let E := fresh "E" in
  assert (E : t = v) by (vm_compute; reflexivity);
  k v E.

(** [query_found H nm k] runs the query [nm] on the host [H] from time 0:
    the preparation, the exact tier and the whole loop body; it gives the
    loop body's result as the witnesses of the goal and leaves what the
    goal says of [found] to [k]. *)
Ltac query_found H nm k :=
  run (@prepare H nm 0%Z) ltac:(fun v Ep =>
    match v with
    | (Normal ?plan, ?w0) =>
        run (@clickFirstRegex H (exactRe plan) (rangeNode plan) 3000%Z w0)
          ltac:(fun v1 E1 =>
            match v1 with
            | (?r1, ?w1) =>
                run (@loopBody H (newPerson nm, 0%Z)) ltac:(fun v2 El =>
                  match v2 with
                  | (?o, (?p', ?w')) =>
                      exists o, p', w'; split;
                      [ exact El | k plan w0 w1 w' r1 o p' Ep E1 El ]
                  end)
            end)
    end).

(** * The definitions at work *)

Example sanitizeName_example :
  sanitizeName (lit "  Mary-Jane   O'Brien_Smith ^ ") = lit "mary jane o'brien smith".
Proof. reflexivity. Qed.

Example canonicalKebab_example :
  canonicalKebab (lit "  Mary-Jane   O'Brien_Smith - ") = lit "mary-jane-obriensmith".
Proof. reflexivity. Qed.

Example parsePersonName_example :
  parsePersonName (lit "Jane van Dyke")
  = Normal {| first := lit "jane"; last := lit "van dyke" |}.
Proof. reflexivity. Qed.

Example computeLetterAndRange_example :
  computeLetterAndRange (lit "smith")
  = Normal {| letterFolder := lit "S"; rangeFolder := lit "Sj-Sr" |}.
Proof. vm_compute. reflexivity. Qed.

Example parsePattern_example :
  parsePattern (lit "^ab-c[a-z0-9-]*-\d{4}$")
  = Some (TBegin :: chars (lit "ab-c")
            ++ [TAtom kebabClass QStar; TAtom (AChar "-") QOne;
                TAtom digitClass (QExactly 4); TEnd]).
Proof. reflexivity. Qed.

Example lastOnly_example :
  match buildLastOnlyRegex (lit "Smith") with
  | Normal re =>
      (test re (lit "smith-jane-1234"), test re (lit "smith--1234"),
       test re (lit "smithson-jane-1234"), test re (lit "smith-jane-12345"))
  | _ => (false, false, false, false)
  end = (true, false, false, false).
Proof. vm_compute. reflexivity. Qed.

(** [Jose] with U+0301 on the [e], a line separator U+2028 and [M_]. *)
Example wide_example :
  Wide.sanitizeName Wide.latinWithMarks
    [0x4A; 0x6F; 0x73; 0x65; 0x301; 0x2028; 0x4D; 0x5F]%N
  = wide (lit "jose m") /\
  Wide.canonicalKebab Wide.latinWithMarks
    [0x4A; 0x6F; 0x73; 0x65; 0x301; 0x2028; 0x4D; 0x5F]%N
  = wide (lit "jose-m").
Proof. split; vm_compute; reflexivity. Qed.

(** U+0344 decomposes into U+0308 and U+0301; the marks of a run are put
    in the order of their classes, 220 before 230 and 1 before 230 before
    232. *)
Example normalizeNFD_example :
  Wide.normalizeNFD Wide.latinWithMarks
    [0x61; 0x344; 0x316; 0x62; 0x315; 0x300; 0x334]%N
  = [0x61; 0x316; 0x308; 0x301; 0x62; 0x334; 0x300; 0x315]%N.
Proof. vm_compute. reflexivity. Qed.

(** A batch on the folder that holds Jane Smith: she is found by the exact
    tier, John Smith only by a fallback, the one-word name is skipped and
    the Adams folder is not there. *)
Example batch_example :
  fst (@main ChainHost.smithFolder
         [lit "Jane Smith"; lit "John Smith"; lit "Jane"; lit "Bob Adams"] 0%Z)
  = Normal (Some [ setFound true (newPerson (lit "Jane Smith"));
                   newPerson (lit "John Smith");
                   newPerson (lit "Jane");
                   newPerson (lit "Bob Adams") ]).
Proof. vm_compute. reflexivity. Qed.

(** * Properties of the string helpers *)

Lemma filter_fixed {A : Type} (f : A -> bool) (l : list A) :
  forallb f l = true -> filter f l = l.
Proof.
  induction l as [|c t IH]; simpl; intros E; [reflexivity|].
  apply andb_prop in E as [E1 E2].
  rewrite E1, IH by assumption. reflexivity.
Qed.

Section Lists.

Variable p : ascii -> bool.

Lemma map_fixed (f : ascii -> ascii) (s : jsstring) :
  forallb (fun c => Ascii.eqb (f c) c) s = true -> map f s = s.
Proof.
  induction s as [|c t IH]; simpl; intros E; [reflexivity|].
  apply andb_prop in E as [E1 E2].
  apply Ascii.eqb_eq in E1. rewrite E1, IH by assumption. reflexivity.
Qed.

Lemma forallb_weaken (q q' : ascii -> bool) (s : jsstring) :
  (forall c, q c = true -> q' c = true) ->
  forallb q s = true -> forallb q' s = true.
Proof.
  intros Hq. rewrite !forallb_forall. auto.
Qed.

Lemma forallb_filter (q f : ascii -> bool) (s : jsstring) :
  forallb q s = true -> forallb q (filter f s) = true.
Proof.
  rewrite !forallb_forall. intros Hs c Hc.
  apply filter_In in Hc. apply Hs, Hc.
Qed.

Lemma noAdjacent_absent (s : jsstring) :
  forallb (fun c => negb (p c)) s = true -> noAdjacent p s = true.
Proof.
  induction s as [|c t IH]; simpl; intros E; [reflexivity|].
  apply andb_prop in E as [E1 E2].
  apply negb_true_iff in E1. rewrite E1, IH by assumption. reflexivity.
Qed.

Lemma noAdjacent_app (a b : jsstring) :
  noAdjacent p (a ++ b) = true ->
  noAdjacent p a = true /\ noAdjacent p b = true.
Proof.
  induction a as [|c t IH]; simpl; intros E; [auto|].
  apply andb_prop in E as [E1 E2].
  destruct (IH E2) as [Ha Hb]. split; [|assumption].
  rewrite Ha, andb_true_r.
  destruct (p c); [|reflexivity].
  destruct t; [reflexivity|]. exact E1.
Qed.

(** *** replaceRuns *)

Variable r : ascii.
Hypothesis p_r : p r = true.

Lemma replaceRuns_cons (c : ascii) (t : jsstring) :
  replaceRuns p r (c :: t) =
  if p c then
    if headIs p t then replaceRuns p r t else r :: replaceRuns p r t
  else c :: replaceRuns p r t.
Proof. destruct t; reflexivity. Qed.

Lemma replaceRuns_head (s : jsstring) :
  headIs p (replaceRuns p r s) = headIs p s.
Proof.
  induction s as [|c t IH]; [reflexivity|].
  rewrite replaceRuns_cons. simpl headIs at 3.
  destruct (p c) eqn:Ec; [|simpl; assumption].
  destruct (headIs p t) eqn:Et; [rewrite IH; reflexivity|].
  simpl. assumption.
Qed.

Lemma replaceRuns_noAdjacent (s : jsstring) :
  noAdjacent p (replaceRuns p r s) = true.
Proof.
  induction s as [|c t IH]; [reflexivity|].
  rewrite replaceRuns_cons.
  destruct (p c) eqn:Ec.
  - destruct (headIs p t) eqn:Et; [exact IH|].
    simpl. rewrite replaceRuns_head, Et, IH, andb_false_r. reflexivity.
  - simpl. rewrite Ec, IH. reflexivity.
Qed.

Lemma replaceRuns_forallb (q : ascii -> bool) (s : jsstring) :
  q r = true ->
  forallb (fun c => p c || q c) s = true ->
  forallb q (replaceRuns p r s) = true.
Proof.
  intros Hr. induction s as [|c t IH]; [reflexivity|].
  intros E. simpl in E. apply andb_prop in E as [E1 E2].
  specialize (IH E2). rewrite replaceRuns_cons.
  destruct (p c) eqn:Ec.
  - destruct (headIs p t); [exact IH|].
    simpl. rewrite Hr, IH. reflexivity.
  - simpl in E1. simpl. rewrite E1, IH. reflexivity.
Qed.

Lemma replaceRuns_fixed (s : jsstring) :
  noAdjacent p s = true ->
  forallb (fun c => negb (p c) || Ascii.eqb c r) s = true ->
  replaceRuns p r s = s.
Proof.
  induction s as [|c t IH]; [reflexivity|].
  intros Hn Hf. simpl in Hn, Hf.
  apply andb_prop in Hn as [Hn1 Hn2]. apply andb_prop in Hf as [Hf1 Hf2].
  specialize (IH Hn2 Hf2). rewrite replaceRuns_cons.
  destruct (p c) eqn:Ec.
  - simpl in Hf1, Hn1. apply Ascii.eqb_eq in Hf1. subst c.
    apply negb_true_iff in Hn1. rewrite Hn1.
    f_equal. exact IH.
  - f_equal. exact IH.
Qed.

End Lists.

(** *** trim *)

Lemma trimEnd_cons (c : ascii) (t : jsstring) :
  trimEnd (c :: t) =
  match trimEnd t with
  | [] => if isWhiteSpace c then [] else [c]
  | t' => c :: t'
  end.
Proof. reflexivity. Qed.

Lemma trimStart_suffix (s : jsstring) : exists u, s = u ++ trimStart s.
Proof.
  induction s as [|c t [u Hu]]; [exists []; reflexivity|].
  simpl. destruct (isWhiteSpace c).
  - exists (c :: u). simpl. f_equal. exact Hu.
  - exists []. reflexivity.
Qed.

Lemma trimEnd_prefix (s : jsstring) : exists u, s = trimEnd s ++ u.
Proof.
  induction s as [|c t [u Hu]]; [exists []; reflexivity|].
  rewrite trimEnd_cons. destruct (trimEnd t) as [|d t'].
  - destruct (isWhiteSpace c).
    + exists (c :: t). reflexivity.
    + exists u. simpl. f_equal. exact Hu.
  - exists u. simpl. f_equal. exact Hu.
Qed.

Lemma trimStart_head (s : jsstring) : headIs isWhiteSpace (trimStart s) = false.
Proof.
  induction s as [|c t IH]; [reflexivity|].
  simpl. destruct (isWhiteSpace c) eqn:Ec; [exact IH|]. simpl. exact Ec.
Qed.

Lemma trimEnd_head (s : jsstring) :
  headIs isWhiteSpace s = false -> headIs isWhiteSpace (trimEnd s) = false.
Proof.
  destruct s as [|c t]; [reflexivity|].
  intros Ec. simpl in Ec. rewrite trimEnd_cons.
  destruct (trimEnd t); [rewrite Ec|]; simpl; auto.
Qed.

Lemma trimEnd_last (s : jsstring) : lastIs isWhiteSpace (trimEnd s) = false.
Proof.
  induction s as [|c t IH]; [reflexivity|].
  rewrite trimEnd_cons. destruct (trimEnd t) as [|d t'].
  - destruct (isWhiteSpace c) eqn:Ec; simpl; auto.
  - exact IH.
Qed.

Lemma trimStart_fixed (s : jsstring) :
  headIs isWhiteSpace s = false -> trimStart s = s.
Proof.
  destruct s as [|c t]; [reflexivity|]. simpl. intros ->. reflexivity.
Qed.

Lemma trimEnd_fixed (s : jsstring) :
  lastIs isWhiteSpace s = false -> trimEnd s = s.
Proof.
  induction s as [|c t IH]; [reflexivity|].
  intros E. rewrite trimEnd_cons. destruct t as [|d t'].
  - simpl in *. rewrite E. reflexivity.
  - rewrite IH by exact E. reflexivity.
Qed.

Lemma forallb_app_l (q : ascii -> bool) (a b : jsstring) :
  forallb q (a ++ b) = true -> forallb q a = true.
Proof. rewrite forallb_app. intros E. apply andb_prop in E. tauto. Qed.

Lemma forallb_app_r (q : ascii -> bool) (a b : jsstring) :
  forallb q (a ++ b) = true -> forallb q b = true.
Proof. rewrite forallb_app. intros E. apply andb_prop in E. tauto. Qed.

Lemma trim_forallb (q : ascii -> bool) (s : jsstring) :
  forallb q s = true -> forallb q (trim s) = true.
Proof.
  intros E. unfold trim.
  destruct (trimStart_suffix s) as [u Hu].
  destruct (trimEnd_prefix (trimStart s)) as [v Hv].
  rewrite Hu in E. apply forallb_app_r in E.
  rewrite Hv in E. apply forallb_app_l in E. exact E.
Qed.

Lemma trim_noAdjacent (p : ascii -> bool) (s : jsstring) :
  noAdjacent p s = true -> noAdjacent p (trim s) = true.
Proof.
  intros E. unfold trim.
  destruct (trimStart_suffix s) as [u Hu].
  destruct (trimEnd_prefix (trimStart s)) as [v Hv].
  rewrite Hu in E. apply noAdjacent_app in E as [_ E].
  rewrite Hv in E. apply noAdjacent_app in E as [E _]. exact E.
Qed.

(** *** the hyphens at the edges *)

Lemma stripTrailingHyphen_cons (c : ascii) (t : jsstring) :
  stripTrailingHyphen (c :: t) =
  match t with
  | [] => if isHyphen c then [] else [c]
  | _ :: _ => c :: stripTrailingHyphen t
  end.
Proof. destruct t; reflexivity. Qed.

Lemma stripLeadingHyphen_suffix (s : jsstring) :
  exists u, s = u ++ stripLeadingHyphen s.
Proof.
  destruct s as [|c t]; [exists []; reflexivity|].
  simpl. destruct (isHyphen c); [exists [c]|exists []]; reflexivity.
Qed.

Lemma stripTrailingHyphen_prefix (s : jsstring) :
  exists u, s = stripTrailingHyphen s ++ u.
Proof.
  induction s as [|c t [u Hu]]; [exists []; reflexivity|].
  rewrite stripTrailingHyphen_cons. destruct t as [|d t'].
  - destruct (isHyphen c); [exists [c]|exists []]; reflexivity.
  - exists u. simpl. f_equal. exact Hu.
Qed.

Lemma stripLeadingHyphen_head (s : jsstring) :
  noAdjacent isHyphen s = true ->
  headIs isHyphen (stripLeadingHyphen s) = false.
Proof.
  destruct s as [|c t]; [reflexivity|].
  simpl. intros E. apply andb_prop in E as [E _].
  destruct (isHyphen c) eqn:Ec; simpl; [|exact Ec].
  simpl in E. apply negb_true_iff in E. exact E.
Qed.

Lemma stripTrailingHyphen_head (s : jsstring) :
  headIs isHyphen s = false ->
  headIs isHyphen (stripTrailingHyphen s) = false.
Proof.
  destruct s as [|c t]; [reflexivity|].
  intros Ec. simpl in Ec. rewrite stripTrailingHyphen_cons.
  destruct t; [rewrite Ec|]; simpl; auto.
Qed.

Lemma stripTrailingHyphen_last (s : jsstring) :
  noAdjacent isHyphen s = true ->
  lastIs isHyphen (stripTrailingHyphen s) = false.
Proof.
  induction s as [|c t IH]; [reflexivity|].
  intros E. simpl in E. apply andb_prop in E as [E1 E2].
  specialize (IH E2). rewrite stripTrailingHyphen_cons.
  destruct t as [|d t'].
  - destruct (isHyphen c) eqn:Ec; simpl; auto.
  - rewrite stripTrailingHyphen_cons in *. destruct t' as [|e t''].
    + simpl in E1. destruct (isHyphen d) eqn:Ed.
      * simpl. rewrite andb_true_r in E1. apply negb_true_iff in E1. exact E1.
      * simpl. exact Ed.
    + exact IH.
Qed.

Lemma stripLeadingHyphen_fixed (s : jsstring) :
  headIs isHyphen s = false -> stripLeadingHyphen s = s.
Proof.
  destruct s as [|c t]; [reflexivity|]. simpl. intros ->. reflexivity.
Qed.

Lemma stripTrailingHyphen_fixed (s : jsstring) :
  lastIs isHyphen s = false -> stripTrailingHyphen s = s.
Proof.
  induction s as [|c t IH]; [reflexivity|].
  intros E. rewrite stripTrailingHyphen_cons. destruct t as [|d t'].
  - simpl in E. rewrite E. reflexivity.
  - rewrite IH by exact E. reflexivity.
Qed.

Lemma stripEdgeHyphens_forallb (q : ascii -> bool) (s : jsstring) :
  forallb q s = true -> forallb q (stripEdgeHyphens s) = true.
Proof.
  intros E. unfold stripEdgeHyphens.
  destruct (stripLeadingHyphen_suffix s) as [u Hu].
  destruct (stripTrailingHyphen_prefix (stripLeadingHyphen s)) as [v Hv].
  rewrite Hu in E. apply forallb_app_r in E.
  rewrite Hv in E. apply forallb_app_l in E. exact E.
Qed.

Lemma stripEdgeHyphens_noAdjacent (s : jsstring) :
  noAdjacent isHyphen s = true ->
  noAdjacent isHyphen (stripEdgeHyphens s) = true /\
  headIs isHyphen (stripEdgeHyphens s) = false /\
  lastIs isHyphen (stripEdgeHyphens s) = false.
Proof.
  intros E. unfold stripEdgeHyphens.
  pose proof (stripLeadingHyphen_head s E) as Hh.
  destruct (stripLeadingHyphen_suffix s) as [u Hu].
  destruct (stripTrailingHyphen_prefix (stripLeadingHyphen s)) as [v Hv].
  rewrite Hu in E. apply noAdjacent_app in E as [_ E].
  pose proof (stripTrailingHyphen_last _ E) as Hl.
  rewrite Hv in E. apply noAdjacent_app in E as [E _].
  auto using stripTrailingHyphen_head.
Qed.

(** ** The two normal forms *)

Lemma sanitize_char (c : ascii) :
  isDiacritic (lowerChar c) = false ->
  let c' := if isHyphen (lowerChar c) || Ascii.eqb (lowerChar c) "_"
            then " " else lowerChar c in
  isWhiteSpace c' || sanitizedChar c' = true.
Proof. each_char c; vm_compute; intros; solve [reflexivity | discriminate]. Qed.

Lemma sanitizedChar_facts (c : ascii) :
  sanitizedChar c = true ->
  Ascii.eqb (lowerChar c) c = true /\
  negb (isDiacritic c) = true /\
  Ascii.eqb (if isHyphen c || Ascii.eqb c "_" then " " else c) c = true /\
  negb (isWhiteSpace c) || Ascii.eqb c " " = true.
Proof. each_char c; vm_compute; intros; solve [auto | discriminate]. Qed.

Lemma kebab_char (c : ascii) :
  isDiacritic (lowerChar c) = false ->
  notKebabInput (lowerChar c) = false ->
  isWhiteSpace (lowerChar c) || isKebabChar (lowerChar c) = true.
Proof. each_char c; vm_compute; intros; solve [reflexivity | discriminate]. Qed.

Lemma isKebabChar_facts (c : ascii) :
  isKebabChar c = true ->
  Ascii.eqb (lowerChar c) c = true /\
  negb (isDiacritic c) = true /\
  negb (notKebabInput c) = true /\
  negb (isWhiteSpace c) = true.
Proof. each_char c; vm_compute; intros; solve [auto | discriminate]. Qed.

Lemma sanitizeName_sanitized (s : jsstring) : sanitized (sanitizeName s).
Proof.
  unfold sanitizeName, sanitized, normalizeNFD.
  set (u := replaceEach _ _ _).
  assert (Hu : forallb (fun c => isWhiteSpace c || sanitizedChar c) u = true).
  { subst u. unfold replaceEach, removeAll, toLowerCase.
    apply forallb_forall. intros c Hc.
    apply in_map_iff in Hc as [d [<- Hd]].
    apply filter_In in Hd as [Hd Hn].
    apply in_map_iff in Hd as [e [<- _]].
    apply negb_true_iff in Hn. exact (sanitize_char e Hn). }
  repeat split.
  - apply trim_forallb, replaceRuns_forallb; [reflexivity|exact Hu].
  - apply trim_noAdjacent, replaceRuns_noAdjacent. reflexivity.
  - apply trimEnd_head, trimStart_head.
  - apply trimEnd_last.
Qed.

Lemma sanitizeName_fixed (s : jsstring) : sanitized s -> sanitizeName s = s.
Proof.
  intros (Hc & Hn & Hh & Hl).
  assert (F : forall q : ascii -> bool,
             (forall c, sanitizedChar c = true -> q c = true) ->
             forallb q s = true)
    by (intros q Hq; revert Hc; apply forallb_weaken, Hq).
  unfold sanitizeName, normalizeNFD, toLowerCase, removeAll, replaceEach, trim.
  rewrite (map_fixed lowerChar)
    by (apply F; intros c Hc'; apply sanitizedChar_facts in Hc'; tauto).
  rewrite (filter_fixed (fun c => negb (isDiacritic c)))
    by (apply F; intros c Hc'; apply sanitizedChar_facts in Hc'; tauto).
  rewrite map_fixed
    by (apply F; intros c Hc'; apply sanitizedChar_facts in Hc'; tauto).
  rewrite replaceRuns_fixed
    by first [ assumption | reflexivity
             | apply F; intros c Hc'; apply sanitizedChar_facts in Hc'; tauto ].
  rewrite trimStart_fixed by assumption.
  apply trimEnd_fixed. assumption.
Qed.

Lemma canonicalKebab_kebab (s : jsstring) : kebab (canonicalKebab s).
Proof.
  unfold canonicalKebab, kebab, normalizeNFD.
  set (u := removeAll notKebabInput _).
  assert (Hu : forallb (fun c => isWhiteSpace c || isKebabChar c) u = true).
  { subst u. unfold removeAll, toLowerCase.
    apply forallb_forall. intros c Hc.
    apply filter_In in Hc as [Hc Hk].
    apply filter_In in Hc as [Hc Hd].
    apply in_map_iff in Hc as [e [<- _]].
    apply negb_true_iff in Hk, Hd. exact (kebab_char e Hd Hk). }
  set (v := replaceRuns isHyphen "-" _).
  assert (Hv : noAdjacent isHyphen v = true)
    by (apply replaceRuns_noAdjacent; reflexivity).
  destruct (stripEdgeHyphens_noAdjacent v Hv) as (H1 & H2 & H3).
  repeat split; try assumption.
  apply stripEdgeHyphens_forallb. subst v.
  apply replaceRuns_forallb; [reflexivity|].
  apply forallb_weaken with (q := isKebabChar);
    [intros c ->; apply orb_true_r|].
  apply replaceRuns_forallb; [reflexivity|exact Hu].
Qed.

Lemma canonicalKebab_fixed (s : jsstring) : kebab s -> canonicalKebab s = s.
Proof.
  intros (Hc & Hn & Hh & Hl).
  assert (F : forall q : ascii -> bool,
             (forall c, isKebabChar c = true -> q c = true) ->
             forallb q s = true)
    by (intros q Hq; revert Hc; apply forallb_weaken, Hq).
  unfold canonicalKebab, normalizeNFD, toLowerCase, removeAll, stripEdgeHyphens.
  rewrite (map_fixed lowerChar)
    by (apply F; intros c Hc'; apply isKebabChar_facts in Hc'; tauto).
  rewrite (filter_fixed (fun c => negb (isDiacritic c)))
    by (apply F; intros c Hc'; apply isKebabChar_facts in Hc'; tauto).
  rewrite filter_fixed
    by (apply F; intros c Hc'; apply isKebabChar_facts in Hc'; tauto).
  rewrite (replaceRuns_fixed isWhiteSpace)
    by first [ reflexivity
             | apply noAdjacent_absent, F; intros c Hc';
               apply isKebabChar_facts in Hc'; tauto
             | apply F; intros c Hc'; apply isKebabChar_facts in Hc';
               destruct Hc' as (_ & _ & _ & ->); reflexivity ].
  rewrite replaceRuns_fixed
    by first [ assumption | reflexivity
             | apply forallb_forall; intros c _; unfold isHyphen;
               destruct (Ascii.eqb c "-"); reflexivity ].
  rewrite stripLeadingHyphen_fixed by assumption.
  apply stripTrailingHyphen_fixed. assumption.
Qed.

(** ** Code units and ASCII characters *)














Lemma lowerChar_ascii (c : ascii) :
  isAsciiChar c = true -> isAsciiChar (lowerChar c) = true.
Proof. each_char c; vm_compute; intros; solve [reflexivity | discriminate]. Qed.





(** *** the steps that look at one code unit at a time *)













(** *** strings of ASCII characters stay strings of ASCII characters *)


Lemma replaceEach_forallb (q p : ascii -> bool) (r : ascii) (s : jsstring) :
  q r = true -> forallb q s = true -> forallb q (replaceEach p r s) = true.
Proof.
  intros Hr Hs. apply forallb_forall. intros c Hc.
  apply in_map_iff in Hc as [d [<- Hd]].
  destruct (p d); [exact Hr|]. revert d Hd. apply forallb_forall. exact Hs.
Qed.

Lemma toLowerCase_ascii (s : jsstring) :
  forallb isAsciiChar s = true -> forallb isAsciiChar (toLowerCase s) = true.
Proof.
  intros E. apply forallb_forall. intros c Hc.
  apply in_map_iff in Hc as [d [<- Hd]]. apply lowerChar_ascii.
  revert d Hd. apply forallb_forall. exact E.
Qed.

Lemma replaceRuns_ascii (p : ascii -> bool) (r : ascii) (s : jsstring) :
  isAsciiChar r = true -> forallb isAsciiChar s = true ->
  forallb isAsciiChar (replaceRuns p r s) = true.
Proof.
  intros Hr Hs. apply replaceRuns_forallb; [exact Hr|].
  revert Hs. apply forallb_weaken. intros c ->. apply orb_true_r.
Qed.

Lemma sanitizeName_ascii (s : jsstring) :
  isAsciiString s = true -> isAsciiString (sanitizeName s) = true.
Proof.
  unfold isAsciiString, sanitizeName, normalizeNFD. intros Hs.
  apply trim_forallb, replaceRuns_ascii; [reflexivity|].
  apply replaceEach_forallb; [reflexivity|].
  apply forallb_filter, toLowerCase_ascii, Hs.
Qed.

(** *** the three steps *)





(** *** the two helpers *)










(** ** parsePersonName *)

Lemma splitBy_ext (p q : ascii -> bool) (s : jsstring) :
  forallb (fun c => Bool.eqb (p c) (q c)) s = true ->
  splitBy p s = splitBy q s.
Proof.
  induction s as [|c t IH]; [reflexivity|].
  simpl. intros E. apply andb_prop in E as [E1 E2].
  apply eqb_prop in E1. rewrite E1, IH by assumption. reflexivity.
Qed.

Lemma splitBy_parts (p : ascii -> bool) (s : jsstring) :
  s <> [] -> noAdjacent p s = true -> lastIs p s = false ->
  exists part parts,
    splitBy p s = part :: parts /\
    forallb (fun x => negb (isEmpty x)) parts = true /\
    isEmpty part = headIs p s.
Proof.
  induction s as [|c t IH]; [congruence|].
  intros _ Hn Hl. simpl in Hn. apply andb_prop in Hn as [Hn1 Hn2].
  destruct t as [|d t'].
  - simpl in Hl. simpl. rewrite Hl. exists [c], []. auto.
  - destruct IH as (part & parts & E & Hp & Hh); [congruence|assumption|exact Hl|].
    change (splitBy p (c :: d :: t')) with
      (if p c then [] :: splitBy p (d :: t')
       else match splitBy p (d :: t') with
            | part :: parts => (c :: part) :: parts
            | [] => [[c]]
            end).
    rewrite E. change (headIs p (c :: d :: t')) with (p c).
    destruct (p c) eqn:Ec.
    + exists [], (part :: parts). simpl in Hn1.
      split; [reflexivity|]. split; [|reflexivity].
      simpl. rewrite Hp, Hh. simpl. rewrite Hn1. reflexivity.
    + exists (c :: part), parts. auto.
Qed.

Lemma sanitizedChar_space (c : ascii) :
  sanitizedChar c = true ->
  Bool.eqb (isWhiteSpace c) (Ascii.eqb " " c) = true.
Proof. each_char c; vm_compute; intros; solve [reflexivity | discriminate]. Qed.

(** The parts [split(' ')] cuts a sanitized name into are its words, except
    that the empty name has one empty part. *)
Lemma sanitized_split (s : jsstring) :
  sanitized s -> s <> [] ->
  split " " s = wsTokens s.
Proof.
  intros (Hc & Hn & Hh & Hl) Hs.
  unfold split, wsTokens.
  rewrite (splitBy_ext (Ascii.eqb " ") isWhiteSpace).
  - destruct (splitBy_parts isWhiteSpace s Hs Hn Hl) as (part & parts & E & Hp & Hf).
    rewrite E. cbn [filter]. rewrite Hf, Hh. cbn [negb].
    rewrite filter_fixed by exact Hp. reflexivity.
  - revert Hc. apply forallb_weaken. intros c Hc.
    apply sanitizedChar_space in Hc. apply eqb_prop in Hc.
    rewrite Hc. apply eqb_reflx.
Qed.

Lemma parsePersonName_one_word (full : jsstring) :
  (List.length (wsTokens (sanitizeName full)) < 2)%nat ->
  parsePersonName full =
  Thrown (Error (lit "Expected " ++ ["034"] ++ lit "first last" ++ ["034"]
                   ++ lit " but got: " ++ full)).
Proof.
  intros Hlen. unfold parsePersonName.
  destruct (sanitizeName full) as [|c t] eqn:Es.
  - reflexivity.
  - rewrite sanitized_split;
      [ | rewrite <- Es; apply sanitizeName_sanitized | congruence ].
    apply Nat.ltb_lt in Hlen. rewrite Hlen. reflexivity.
Qed.

(** ** computeLetterAndRange *)

Lemma testUpperAZ_char (c : ascii) : testUpperAZ [c] = isUpperAZ c.
Proof. each_char c; vm_compute; reflexivity. Qed.

Lemma upperChar_letter (c : ascii) :
  isUpperAZ (upperChar c) = isAsciiLetter c.
Proof. each_char c; vm_compute; reflexivity. Qed.

Lemma computeLetterAndRange_letter (last : jsstring) (c : ascii) (rest : jsstring) :
  removeAll isHyphen (canonicalKebab last) = c :: rest ->
  isAsciiLetter c = true ->
  computeLetterAndRange last =
  Normal {| letterFolder := [upperChar c];
            rangeFolder :=
              [upperChar c] ++ fst (bucketOfSecond (hd_error rest)) ++ lit "-"
                ++ [upperChar c] ++ snd (bucketOfSecond (hd_error rest)) |}.
Proof.
  intros E Hc. unfold computeLetterAndRange. rewrite E.
  change (toUpperCase (charAtOr (c :: rest) 0 [])) with [upperChar c].
  rewrite testUpperAZ_char, upperChar_letter, Hc.
  cbn [isEmpty negb orb].
  change (charAtOr (c :: rest) 1 (lit "a"))
    with (match hd_error rest with Some d => [d] | None => lit "a" end).
  unfold bucketOfSecond. cbv zeta.
  destruct rest; reflexivity.
Qed.

Lemma computeLetterAndRange_no_letter (last : jsstring) :
  headIs isAsciiLetter (removeAll isHyphen (canonicalKebab last)) = false ->
  computeLetterAndRange last =
  Thrown (Error (lit "Last name must start with A-Z: " ++ last)).
Proof.
  intros E. unfold computeLetterAndRange.
  destruct (removeAll isHyphen (canonicalKebab last)) as [|c rest].
  - reflexivity.
  - change (toUpperCase (charAtOr (c :: rest) 0 [])) with [upperChar c].
    simpl in E.
    rewrite testUpperAZ_char, upperChar_letter, E. reflexivity.
Qed.

Lemma bucketOfSecond_range (o : option ascii) :
  In (bucketOfSecond o)
     [(lit "a", lit "i"); (lit "j", lit "r"); (lit "s", lit "z")].
Proof.
  unfold bucketOfSecond. cbv zeta.
  destruct (strGeb _ _ && strLeb _ _); [simpl; auto|].
  destruct (strGeb _ _ && strLeb _ _); simpl; auto.
Qed.

Lemma bucketOfSecond_digit (d : ascii) :
  isDigit d = true -> bucketOfSecond (Some d) = (lit "s", lit "z").
Proof. each_char d; vm_compute; intros; solve [reflexivity | discriminate]. Qed.

(** C2.  When the canonical last name, hyphens removed, starts with a
    letter, computeLetterAndRange returns a range folder made of the
    upper-case first letter and one of the three buckets a-i, j-r, s-z, and
    which bucket is a function of the second character alone (of its
    absence, when there is none). *)
Theorem bucket_function_of_second_letter :
  exists bucketOf : option ascii -> jsstring * jsstring,
    (forall second,
        In (bucketOf second)
           [(lit "a", lit "i"); (lit "j", lit "r"); (lit "s", lit "z")]) /\
    (forall last : jsstring,
        let clean := removeAll isHyphen (canonicalKebab last) in
        headIs isAsciiLetter clean = true ->
        exists letter,
          computeLetterAndRange last =
          Normal {| letterFolder := letter;
                    rangeFolder :=
                      letter ++ fst (bucketOf (nth_error clean 1)) ++ lit "-"
                        ++ letter ++ snd (bucketOf (nth_error clean 1)) |}).
Proof.
  exists bucketOfSecond. split; [exact bucketOfSecond_range|].
  intros last clean Hl. subst clean.
  destruct (removeAll isHyphen (canonicalKebab last)) as [|c rest] eqn:E;
    [discriminate|].
  exists [upperChar c]. simpl in Hl.
  rewrite (computeLetterAndRange_letter last c rest E Hl).
  destruct rest; reflexivity.
Qed.

Lemma bucket_function_of_second_letter_witness :
  exists bucketOf : option ascii -> jsstring * jsstring,
    In (bucketOf (Some "m"))
       [(lit "a", lit "i"); (lit "j", lit "r"); (lit "s", lit "z")] /\
    exists letter,
      computeLetterAndRange (lit "Smith") =
      Normal {| letterFolder := letter;
                rangeFolder :=
                  letter ++ fst (bucketOf (Some "m")) ++ lit "-"
                    ++ letter ++ snd (bucketOf (Some "m")) |}.
Proof.
  destruct bucket_function_of_second_letter as (bucketOf & Hin & Hlast).
  exists bucketOf. split; [apply Hin|].
  apply (Hlast (lit "Smith")). vm_compute. reflexivity.
Defined.

(** C9.  The edges of computeLetterAndRange: with no second character the
    bucket is a-i; with a decimal digit as second character it is s-z; and
    when the canonical last name, hyphens removed, does not start with a
    letter (it is empty, say) the function throws. *)
Theorem bucket_edges (last : jsstring) :
  let clean := removeAll isHyphen (canonicalKebab last) in
  (forall c, clean = [c] -> isAsciiLetter c = true ->
     computeLetterAndRange last =
     Normal {| letterFolder := [upperChar c];
               rangeFolder := [upperChar c] ++ lit "a-" ++ [upperChar c] ++ lit "i" |})
  /\
  (forall c d rest, clean = c :: d :: rest ->
     isAsciiLetter c = true -> isDigit d = true ->
     computeLetterAndRange last =
     Normal {| letterFolder := [upperChar c];
               rangeFolder := [upperChar c] ++ lit "s-" ++ [upperChar c] ++ lit "z" |})
  /\
  (headIs isAsciiLetter clean = false ->
     computeLetterAndRange last =
     Thrown (Error (lit "Last name must start with A-Z: " ++ last))).
Proof.
  intros clean. subst clean. repeat split.
  - intros c E Hc. rewrite (computeLetterAndRange_letter last c [] E Hc).
    reflexivity.
  - intros c d rest E Hc Hd.
    rewrite (computeLetterAndRange_letter last c (d :: rest) E Hc).
    simpl hd_error. rewrite (bucketOfSecond_digit d Hd). reflexivity.
  - apply computeLetterAndRange_no_letter.
Qed.

Lemma bucket_edges_witness :
  computeLetterAndRange (lit "O") =
    Normal {| letterFolder := lit "O"; rangeFolder := lit "Oa-Oi" |} /\
  computeLetterAndRange (lit "K9 unit") =
    Normal {| letterFolder := lit "K"; rangeFolder := lit "Ks-Kz" |} /\
  computeLetterAndRange (lit "-'-") =
    Thrown (Error (lit "Last name must start with A-Z: -'-")).
Proof.
  split; [|split].
  - apply (proj1 (bucket_edges (lit "O")) "o"); reflexivity.
  - apply (proj1 (proj2 (bucket_edges (lit "K9 unit"))) "k" "9" (lit "unit"));
      reflexivity.
  - apply (proj2 (proj2 (bucket_edges (lit "-'-")))). reflexivity.
Defined.

(** * The four patterns *)

(** ** Reading the patterns *)

Lemma pstep_kebabChar (c : ascii) (acc : list term) :
  isKebabChar c = true ->
  pstep (Some (PNormal, acc)) c = Some (PNormal, TAtom (AChar c) QOne :: acc).
Proof.
  each_char c; intros E; solve [reflexivity | vm_compute in E; discriminate E].
Qed.

Lemma fold_pstep_kebab (l : jsstring) (acc : list term) :
  forallb isKebabChar l = true ->
  fold_left pstep l (Some (PNormal, acc)) = Some (PNormal, rev (chars l) ++ acc).
Proof.
  revert acc. induction l as [|c t IH]; intros acc E; [reflexivity|].
  simpl in E. apply andb_prop in E as [E1 E2].
  cbn [fold_left]. rewrite pstep_kebabChar by exact E1.
  rewrite IH by exact E2. cbn [chars map rev].
  rewrite <- app_assoc. reflexivity.
Qed.

Lemma parse_anchored (l tail : jsstring) (tt : list term) :
  forallb isKebabChar l = true ->
  (forall acc,
      fold_left pstep tail (Some (PNormal, acc)) = Some (PNormal, rev tt ++ acc)) ->
  parsePattern (lit "^" ++ l ++ tail) = Some (TBegin :: chars l ++ tt).
Proof.
  intros Hl Ht. unfold parsePattern.
  rewrite !fold_left_app.
  change (fold_left pstep (lit "^") (Some (PNormal, [])))
    with (Some (PNormal, [TBegin])).
  rewrite fold_pstep_kebab by exact Hl. rewrite Ht.
  cbv beta iota.
  rewrite !rev_app_distr, !rev_involutive, <- app_assoc. reflexivity.
Qed.

Lemma tail_suffix (acc : list term) :
  fold_left pstep (lit "-\d{4}$") (Some (PNormal, acc))
  = Some (PNormal, rev suffixTerms ++ acc).
Proof. reflexivity. Qed.

Lemma tail_star (acc : list term) :
  fold_left pstep (lit "[a-z0-9-]*-\d{4}$") (Some (PNormal, acc))
  = Some (PNormal, rev (TAtom kebabClass QStar :: suffixTerms) ++ acc).
Proof. reflexivity. Qed.

Lemma tail_plus (acc : list term) :
  fold_left pstep (lit "-[a-z0-9-]+-\d{4}$") (Some (PNormal, acc))
  = Some (PNormal,
          rev (TAtom (AChar "-") QOne :: TAtom kebabClass QPlus :: suffixTerms)
            ++ acc).
Proof. reflexivity. Qed.

Lemma kebab_chars (s : jsstring) : forallb isKebabChar (canonicalKebab s) = true.
Proof. apply canonicalKebab_kebab. Qed.

Lemma forallb_charAtOr (q : ascii -> bool) (s : jsstring) :
  forallb q s = true -> forallb q (charAtOr s 0 []) = true.
Proof.
  destruct s as [|c t]; [reflexivity|].
  simpl. intros E. apply andb_prop in E as [-> _]. reflexivity.
Qed.

Lemma toLowerCase_kebab (s : jsstring) :
  forallb isKebabChar s = true -> toLowerCase s = s.
Proof.
  intros E. apply map_fixed. revert E. apply forallb_weaken.
  intros c Hc. apply isKebabChar_facts in Hc. tauto.
Qed.

Lemma escapeSource_anchored (l tail : jsstring) :
  forallb isKebabChar l = true ->
  escapeSource tail = tail ->
  tail <> [] ->
  escapeSource (lit "^" ++ l ++ tail) = lit "^" ++ l ++ tail.
Proof.
  intros Hl Ht Hn. destruct tail as [|d tail']; [congruence|].
  change (escapeSource (lit "^" ++ l ++ d :: tail'))
    with ("^" :: flat_map
                   (fun c =>
                      if Ascii.eqb c "010" then lit "\n"
                      else if Ascii.eqb c "013" then lit "\r"
                      else [c])
                   (l ++ d :: tail')).
  rewrite flat_map_app. change (flat_map _ (d :: tail')) with
    (escapeSource (d :: tail')). rewrite Ht.
  change (lit "^" ++ l ++ d :: tail') with ("^" :: l ++ d :: tail').
  do 2 f_equal.
  induction l as [|c t IH]; [reflexivity|].
  cbn [forallb] in Hl. apply andb_prop in Hl as [Hc Hl].
  cbn [flat_map]. rewrite (IH Hl).
  revert Hc. clear. each_char c; intros E;
    solve [reflexivity | vm_compute in E; discriminate E].
Qed.

Lemma buildExactRegex_eq (last first : jsstring) :
  buildExactRegex last first =
  Normal {| sourceText := lit "^" ++ canonicalKebab last ++ lit "-"
                           ++ canonicalKebab first ++ lit "-\d{4}$";
            source := TBegin :: chars (canonicalKebab last ++ lit "-"
                                         ++ canonicalKebab first) ++ suffixTerms;
            ignoreCase := true |}.
Proof.
  unfold buildExactRegex, newRegExp. cbv zeta.
  replace (lit "^" ++ canonicalKebab last ++ lit "-" ++ canonicalKebab first
             ++ lit "-\d{4}$")
    with (lit "^" ++ (canonicalKebab last ++ lit "-" ++ canonicalKebab first)
            ++ lit "-\d{4}$")
    by (rewrite <- !app_assoc; reflexivity).
  assert (Hl : forallb isKebabChar
                 (canonicalKebab last ++ lit "-" ++ canonicalKebab first) = true)
    by (rewrite !forallb_app, !kebab_chars; reflexivity).
  rewrite (parse_anchored _ _ suffixTerms); [|exact Hl|exact tail_suffix].
  rewrite escapeSource_anchored by first [exact Hl | reflexivity | discriminate].
  rewrite <- !app_assoc. reflexivity.
Qed.

Lemma buildLastPlusFirstInitialRegex_eq (last first : jsstring) :
  buildLastPlusFirstInitialRegex last first =
  Normal {| sourceText := lit "^" ++ canonicalKebab last ++ lit "-"
                           ++ charAtOr (canonicalKebab first) 0 []
                           ++ lit "[a-z0-9-]*-\d{4}$";
            source :=
              TBegin :: chars (canonicalKebab last ++ lit "-"
                                 ++ charAtOr (canonicalKebab first) 0 [])
                ++ TAtom kebabClass QStar :: suffixTerms;
            ignoreCase := true |}.
Proof.
  unfold buildLastPlusFirstInitialRegex, newRegExp. cbv zeta.
  replace (lit "^" ++ canonicalKebab last ++ lit "-"
             ++ charAtOr (canonicalKebab first) 0 [] ++ lit "[a-z0-9-]*-\d{4}$")
    with (lit "^" ++ (canonicalKebab last ++ lit "-"
                        ++ charAtOr (canonicalKebab first) 0 [])
            ++ lit "[a-z0-9-]*-\d{4}$")
    by (rewrite <- !app_assoc; reflexivity).
  assert (Hl : forallb isKebabChar
                 (canonicalKebab last ++ lit "-"
                    ++ charAtOr (canonicalKebab first) 0 []) = true)
    by (rewrite !forallb_app, kebab_chars, forallb_charAtOr
          by apply kebab_chars; reflexivity).
  rewrite (parse_anchored _ _ (TAtom kebabClass QStar :: suffixTerms));
    [|exact Hl|exact tail_star].
  rewrite escapeSource_anchored by first [exact Hl | reflexivity | discriminate].
  rewrite <- !app_assoc. reflexivity.
Qed.

Lemma buildLastOnlyRegex_eq (last : jsstring) :
  buildLastOnlyRegex last =
  Normal {| sourceText := lit "^" ++ canonicalKebab last
                           ++ lit "-[a-z0-9-]+-\d{4}$";
            source :=
              TBegin :: chars (canonicalKebab last)
                ++ TAtom (AChar "-") QOne :: TAtom kebabClass QPlus :: suffixTerms;
            ignoreCase := true |}.
Proof.
  unfold buildLastOnlyRegex, newRegExp. cbv zeta.
  rewrite (parse_anchored _ _
             (TAtom (AChar "-") QOne :: TAtom kebabClass QPlus :: suffixTerms));
    [|apply kebab_chars|exact tail_plus].
  rewrite escapeSource_anchored
    by first [apply kebab_chars | reflexivity | discriminate].
  reflexivity.
Qed.

Lemma buildFirstLetterRegex_eq (last : jsstring) :
  buildFirstLetterRegex last =
  Normal {| sourceText := lit "^" ++ charAtOr (canonicalKebab last) 0 []
                           ++ lit "[a-z0-9-]*-\d{4}$";
            source :=
              TBegin :: chars (charAtOr (canonicalKebab last) 0 [])
                ++ TAtom kebabClass QStar :: suffixTerms;
            ignoreCase := true |}.
Proof.
  unfold buildFirstLetterRegex, newRegExp. cbv zeta.
  rewrite toLowerCase_kebab by apply forallb_charAtOr, kebab_chars.
  rewrite (parse_anchored _ _ (TAtom kebabClass QStar :: suffixTerms));
    [|apply forallb_charAtOr, kebab_chars|exact tail_star].
  rewrite escapeSource_anchored
    by first [apply forallb_charAtOr, kebab_chars | reflexivity | discriminate].
  reflexivity.
Qed.

(** The script never builds a pattern outside the part of the language
    that is modelled. *)
Lemma buildRegex_defined (last first : jsstring) :
  (exists re, buildExactRegex last first = Normal re) /\
  (exists re, buildLastPlusFirstInitialRegex last first = Normal re) /\
  (exists re, buildLastOnlyRegex last = Normal re) /\
  (exists re, buildFirstLetterRegex last = Normal re).
Proof.
  rewrite buildExactRegex_eq, buildLastPlusFirstInitialRegex_eq,
    buildLastOnlyRegex_eq, buildFirstLetterRegex_eq.
  repeat split; eexists; reflexivity.
Qed.

(** ** Matching without regard to case *)

Lemma canonicalize_lowerChar (c : ascii) :
  canonicalize true (lowerChar c) = canonicalize true c.
Proof. each_char c; reflexivity. Qed.

Lemma lowerChar_upperChar (c : ascii) : lowerChar (upperChar c) = lowerChar c.
Proof. each_char c; reflexivity. Qed.

Lemma atomMatches_lowerChar (a : atom) (c : ascii) :
  atomMatches true a (lowerChar c) = atomMatches true a c.
Proof.
  destruct a; unfold atomMatches; rewrite canonicalize_lowerChar; reflexivity.
Qed.

Lemma repK_lower (n : nat) (a : atom) (k k' : bool -> jsstring -> bool) :
  (forall b s, k b s = k' b (toLowerCase s)) ->
  forall b s, repK true n a k b s = repK true n a k' b (toLowerCase s).
Proof.
  intros Hk. induction n as [|n IH]; intros b s; [apply Hk|].
  destruct s as [|c t]; [reflexivity|].
  cbn [repK toLowerCase map]. rewrite atomMatches_lowerChar, IH. reflexivity.
Qed.

Lemma starK_lower (a : atom) (k k' : bool -> jsstring -> bool) :
  (forall b s, k b s = k' b (toLowerCase s)) ->
  forall b s, starK true a k b s = starK true a k' b (toLowerCase s).
Proof.
  intros Hk b s. revert b. induction s as [|c t IH]; intros b.
  - cbn [starK toLowerCase map]. rewrite Hk. reflexivity.
  - cbn [starK toLowerCase map].
    rewrite atomMatches_lowerChar, IH, Hk. reflexivity.
Qed.

Lemma matchTerms_lower (ts : list term) :
  forall b s, matchTerms true ts b s = matchTerms true ts b (toLowerCase s).
Proof.
  induction ts as [|t r IH]; intros b s; [reflexivity|].
  destruct t as [| |a q].
  - cbn [matchTerms]. rewrite IH. reflexivity.
  - destruct s; cbn [matchTerms toLowerCase map]; [apply IH|reflexivity].
  - destruct q; cbn [matchTerms].
    + apply repK_lower, IH.
    + apply starK_lower, IH.
    + apply repK_lower, starK_lower, IH.
    + apply repK_lower, IH.
Qed.

Lemma searchFrom_lower (ts : list term) :
  forall b s, searchFrom true ts b s = searchFrom true ts b (toLowerCase s).
Proof.
  intros b s. revert b. induction s as [|c t IH]; intros b.
  - reflexivity.
  - cbn [searchFrom toLowerCase map].
    rewrite IH, (matchTerms_lower ts b (c :: t)). reflexivity.
Qed.

Lemma searchFrom_begin_elsewhere (ic : bool) (r : list term) (s : jsstring) :
  searchFrom ic (TBegin :: r) false s = false.
Proof. induction s as [|c t IH]; [reflexivity|]. simpl. exact IH. Qed.

(** An expression that starts with [^] matches at the start or nowhere. *)
Lemma searchFrom_begin (ic : bool) (r : list term) (s : jsstring) :
  searchFrom ic (TBegin :: r) true s = matchTerms ic r true s.
Proof.
  destruct s as [|c t]; cbn [searchFrom matchTerms andb].
  - apply orb_false_r.
  - rewrite searchFrom_begin_elsewhere. apply orb_false_r.
Qed.

(** ** Literal characters, digits and the class *)

Lemma chars_intro (l : jsstring) (r : list term) :
  forallb isKebabChar l = true ->
  forall b suf,
    matchTerms true r (b && isEmpty l) suf = true ->
    matchTerms true (chars l ++ r) b (l ++ suf) = true.
Proof.
  induction l as [|c t IH]; intros Hl b suf Hr.
  - simpl in *. rewrite andb_true_r in Hr. exact Hr.
  - simpl in Hl. apply andb_prop in Hl as [_ Hl].
    cbn [chars map app matchTerms repK].
    unfold atomMatches. rewrite Ascii.eqb_refl. cbn [andb].
    apply (IH Hl). rewrite andb_false_r in Hr.
    destruct t; exact Hr.
Qed.

Lemma chars_elim (l : jsstring) (r : list term) :
  forall b s,
    matchTerms true (chars l ++ r) b s = true ->
    exists pre suf,
      s = pre ++ suf /\ toLowerCase pre = toLowerCase l /\
      matchTerms true r (b && isEmpty l) suf = true.
Proof.
  induction l as [|c t IH]; intros b s E.
  - exists [], s. simpl. rewrite andb_true_r. auto.
  - cbn [chars map app matchTerms repK] in E.
    destruct s as [|x s']; [discriminate|].
    apply andb_prop in E as [Ex E].
    apply IH in E as (pre & suf & -> & Hpre & Hr).
    exists (x :: pre), suf. repeat split.
    + cbn [toLowerCase map]. f_equal; [|exact Hpre].
      unfold atomMatches in Ex. apply Ascii.eqb_eq in Ex.
      unfold canonicalize in Ex.
      rewrite <- (lowerChar_upperChar x), <- Ex. apply lowerChar_upperChar.
    + rewrite andb_false_r. destruct t; exact Hr.
Qed.

Lemma digitClass_matches (c : ascii) :
  atomMatches true digitClass c = isDigit c.
Proof. each_char c; vm_compute; reflexivity. Qed.

Lemma kebabClass_matches (c : ascii) :
  isKebabChar c = true -> atomMatches true kebabClass c = true.
Proof. each_char c; vm_compute; intros; solve [reflexivity | discriminate]. Qed.

Lemma isDigit_lowerChar (c : ascii) :
  isDigit (lowerChar c) = isDigit c.
Proof. each_char c; reflexivity. Qed.

Lemma isDigit_lower_fixed (c : ascii) :
  isDigit c = true -> Ascii.eqb (lowerChar c) c = true.
Proof. each_char c; vm_compute; intros; solve [reflexivity | discriminate]. Qed.

(** [\d{4}$] *)
Lemma four_digits (b : bool) (s : jsstring) :
  matchTerms true [TAtom digitClass (QExactly 4); TEnd] b s = true <->
  List.length s = 4%nat /\ forallb isDigit s = true.
Proof.
  destruct s as [|d1 [|d2 [|d3 [|d4 [|d5 s]]]]];
    cbn [matchTerms repK forallb List.length];
    rewrite ?digitClass_matches.
  1-4: split; [ intros E; try discriminate E;
                repeat (apply andb_prop in E as [_ E]); discriminate E
              | intros [E _]; discriminate E ].
  - rewrite !andb_true_r. intuition.
  - split; [|intros [E _]; discriminate E].
    intros E. repeat (apply andb_prop in E as [_ E]). discriminate E.
Qed.

(** [-\d{4}$] *)
Lemma suffix_matches (b : bool) (digits : jsstring) :
  List.length digits = 4%nat -> forallb isDigit digits = true ->
  matchTerms true suffixTerms b (lit "-" ++ digits) = true.
Proof.
  intros Hn Hd. unfold suffixTerms. cbn [lit list_ascii_of_string app].
  change (atomMatches true (AChar "-") "-"
          && matchTerms true [TAtom digitClass (QExactly 4); TEnd] false digits
          = true).
  apply andb_true_intro. split; [reflexivity|].
  apply four_digits. auto.
Qed.

(** [[a-z0-9-]*-\d{4}$] *)
Lemma star_suffix_matches (mid digits : jsstring) :
  forallb isKebabChar mid = true ->
  List.length digits = 4%nat -> forallb isDigit digits = true ->
  forall b,
    starK true kebabClass (matchTerms true suffixTerms) b
      (mid ++ lit "-" ++ digits) = true.
Proof.
  intros Hm Hn Hd. induction mid as [|c t IH]; intros b.
  - cbn [app]. destruct (lit "-" ++ digits) eqn:E; [discriminate E|].
    cbn [starK]. rewrite <- E, suffix_matches by assumption. reflexivity.
  - simpl in Hm. apply andb_prop in Hm as [Hc Ht].
    cbn [app starK]. rewrite (kebabClass_matches c Hc), (IH Ht).
    apply orb_true_r.
Qed.

Lemma test_begin (text : jsstring) (r : list term) (s : jsstring) :
  test {| sourceText := text; source := TBegin :: r; ignoreCase := true |} s
  = matchTerms true r true (toLowerCase s).
Proof.
  unfold test. cbn [source ignoreCase].
  rewrite searchFrom_begin. apply matchTerms_lower.
Qed.

Lemma toLowerCase_app (a b : jsstring) :
  toLowerCase (a ++ b) = toLowerCase a ++ toLowerCase b.
Proof. apply map_app. Qed.

Lemma toLowerCase_digits (digits : jsstring) :
  forallb isDigit digits = true -> toLowerCase digits = digits.
Proof.
  intros E. apply map_fixed. revert E. apply forallb_weaken.
  exact isDigit_lower_fixed.
Qed.

Lemma forallb_isDigit_lower (s : jsstring) :
  forallb isDigit (toLowerCase s) = forallb isDigit s.
Proof.
  induction s as [|c t IH]; [reflexivity|].
  cbn [toLowerCase map forallb]. rewrite isDigit_lowerChar.
  f_equal. exact IH.
Qed.

Lemma exact_terms_match (text last first candidate : jsstring) :
  test {| sourceText := text;
          source := TBegin :: chars (canonicalKebab last ++ lit "-"
                                       ++ canonicalKebab first) ++ suffixTerms;
          ignoreCase := true |} candidate = true <->
  exists digits,
    List.length digits = 4%nat /\ forallb isDigit digits = true /\
    eqIgnoreCase candidate
      (canonicalKebab last ++ lit "-" ++ canonicalKebab first
         ++ lit "-" ++ digits).
Proof.
  set (l := canonicalKebab last ++ lit "-" ++ canonicalKebab first).
  assert (Hl : forallb isKebabChar l = true)
    by (subst l; rewrite !forallb_app, !kebab_chars; reflexivity).
  replace (canonicalKebab last ++ lit "-" ++ canonicalKebab first)
    with l by reflexivity.
  unfold eqIgnoreCase. split.
  - unfold test. cbn [source ignoreCase]. rewrite searchFrom_begin.
    intros E. apply chars_elim in E as (pre & suf & Es & Hpre & Hr).
    destruct suf as [|h digits]; [discriminate Hr|].
    unfold suffixTerms in Hr. cbn [matchTerms repK] in Hr.
    apply andb_prop in Hr as [Hh Hr].
    apply (proj1 (four_digits false digits)) in Hr as [Hn Hd].
    exists digits. split; [exact Hn|]. split; [exact Hd|].
    rewrite Es.
    replace (canonicalKebab last ++ lit "-" ++ canonicalKebab first
               ++ lit "-" ++ digits)
      with (l ++ lit "-" ++ digits)
      by (subst l; rewrite <- !app_assoc; reflexivity).
    unfold toLowerCase in *. rewrite !map_app, Hpre.
    f_equal. cbn [map lit list_ascii_of_string app]. f_equal.
    unfold atomMatches, canonicalize in Hh. apply Ascii.eqb_eq in Hh.
    rewrite <- (lowerChar_upperChar h), <- Hh. reflexivity.
  - intros (digits & Hn & Hd & E).
    replace (canonicalKebab last ++ lit "-" ++ canonicalKebab first
               ++ lit "-" ++ digits)
      with (l ++ lit "-" ++ digits) in E
      by (subst l; rewrite <- !app_assoc; reflexivity).
    rewrite test_begin, E, !toLowerCase_app.
    rewrite (toLowerCase_kebab l Hl), (toLowerCase_digits digits Hd).
    change (toLowerCase (lit "-")) with (lit "-").
    apply chars_intro; [exact Hl|].
    apply suffix_matches; assumption.
Qed.

(** C3.  A candidate matches the exact-tier expression exactly when, up to
    the case of ASCII letters, it is the canonical last name, a hyphen, the
    canonical first name, a hyphen and four decimal digits. *)
Theorem exact_pattern_matches (last first : jsstring) :
  exists re,
    buildExactRegex last first = Normal re /\
    forall candidate,
      test re candidate = true <->
      exists digits,
        List.length digits = 4%nat /\ forallb isDigit digits = true /\
        eqIgnoreCase candidate
          (canonicalKebab last ++ lit "-" ++ canonicalKebab first
             ++ lit "-" ++ digits).
Proof.
  eexists. split; [apply buildExactRegex_eq|].
  intros candidate. apply exact_terms_match.
Qed.

Lemma exact_pattern_matches_witness :
  exists re,
    buildExactRegex (lit "O'Brien") (lit "Mary Ann") = Normal re /\
    test re (lit "OBrien-MARY-ann-2024") = true.
Proof.
  destruct (exact_pattern_matches (lit "O'Brien") (lit "Mary Ann"))
    as (re & Ere & Hre).
  exists re. split; [exact Ere|].
  apply Hre. exists (lit "2024"). repeat split.
Defined.

Lemma charAtOr_tl (s : jsstring) : s = charAtOr s 0 [] ++ tl s.
Proof. destruct s; reflexivity. Qed.

Lemma forallb_tl (q : ascii -> bool) (s : jsstring) :
  forallb q s = true -> forallb q (tl s) = true.
Proof.
  destruct s as [|c t]; [reflexivity|].
  simpl. intros E. apply andb_prop in E. tauto.
Qed.

(** C4.  The tiers are ordered by decreasing specificity: when both
    canonical names are non-empty, whatever matches the exact expression
    also matches the last + first-initial, the last-only and the
    first-letter expressions. *)
Theorem tiers_decreasing_specificity (last first : jsstring) :
  canonicalKebab last <> [] ->
  canonicalKebab first <> [] ->
  exists re1 re2 re3 re4,
    buildExactRegex last first = Normal re1 /\
    buildLastPlusFirstInitialRegex last first = Normal re2 /\
    buildLastOnlyRegex last = Normal re3 /\
    buildFirstLetterRegex last = Normal re4 /\
    forall s,
      test re1 s = true ->
      test re2 s = true /\ test re3 s = true /\ test re4 s = true.
Proof.
  intros _ Hfirst.
  do 4 eexists.
  split; [apply buildExactRegex_eq|].
  split; [apply buildLastPlusFirstInitialRegex_eq|].
  split; [apply buildLastOnlyRegex_eq|].
  split; [apply buildFirstLetterRegex_eq|].
  intros s E.
  apply exact_terms_match in E as (digits & Hn & Hd & E).
  pose proof (kebab_chars last) as HL.
  pose proof (kebab_chars first) as HF.
  set (L := canonicalKebab last) in *.
  destruct (canonicalKebab first) as [|c F'] eqn:EF; [congruence|].
  unfold eqIgnoreCase in E.
  assert (E' : toLowerCase s = L ++ lit "-" ++ (c :: F') ++ lit "-" ++ digits).
  { rewrite E, !toLowerCase_app.
    rewrite (toLowerCase_kebab L HL), (toLowerCase_kebab (c :: F') HF),
      (toLowerCase_digits digits Hd).
    reflexivity. }
  clear E. cbn [forallb] in HF. apply andb_prop in HF as [Hc HF'].
  rewrite !test_begin, E'. repeat split.
  - replace (L ++ lit "-" ++ (c :: F') ++ lit "-" ++ digits)
      with ((L ++ lit "-" ++ charAtOr (c :: F') 0 [])
              ++ F' ++ lit "-" ++ digits)
      by (rewrite <- !app_assoc; reflexivity).
    apply chars_intro.
    + rewrite !forallb_app, HL. cbn. rewrite Hc. reflexivity.
    + cbn [matchTerms]. apply star_suffix_matches; assumption.
  - apply chars_intro; [exact HL|].
    cbn [lit list_ascii_of_string app matchTerms repK].
    change (atomMatches true (AChar "-") "-") with true.
    rewrite (kebabClass_matches c Hc). cbn [andb].
    apply star_suffix_matches; assumption.
  - rewrite (charAtOr_tl L) at 2. rewrite <- !app_assoc.
    apply chars_intro; [apply forallb_charAtOr, HL|].
    cbn [matchTerms].
    replace (tl L ++ lit "-" ++ (c :: F') ++ lit "-" ++ digits)
      with ((tl L ++ lit "-" ++ c :: F') ++ lit "-" ++ digits)
      by (rewrite <- !app_assoc; reflexivity).
    apply star_suffix_matches; try assumption.
    rewrite !forallb_app, (forallb_tl _ _ HL). cbn. rewrite Hc, HF'.
    reflexivity.
Qed.

Lemma tiers_decreasing_specificity_witness :
  exists re2 re3 re4,
    buildLastPlusFirstInitialRegex (lit "van Dyke") (lit "Mary-Jo") = Normal re2 /\
    buildLastOnlyRegex (lit "van Dyke") = Normal re3 /\
    buildFirstLetterRegex (lit "van Dyke") = Normal re4 /\
    test re2 (lit "Van-Dyke-MARY-JO-0042") = true /\
    test re3 (lit "Van-Dyke-MARY-JO-0042") = true /\
    test re4 (lit "Van-Dyke-MARY-JO-0042") = true.
Proof.
  destruct (tiers_decreasing_specificity (lit "van Dyke") (lit "Mary-Jo"))
    as (re1 & re2 & re3 & re4 & E1 & E2 & E3 & E4 & Hall);
    [vm_compute; discriminate | vm_compute; discriminate |].
  exists re2, re3, re4. repeat (split; [assumption|]).
  apply Hall.
  vm_compute in E1. injection E1 as <-. vm_compute. reflexivity.
Defined.

(** * The loop over the provided names *)

Section ScriptFacts.

Context {H : Host}.

(** ** The polling loops end *)

Lemma pollBound_enough (timeout : Z) :
  (timeout < 500 * Z.of_nat (pollBound timeout))%Z.
Proof.
  unfold pollBound. rewrite Nat2Z.inj_add. change (Z.of_nat 1) with 1%Z.
  destruct (Z.neg_nonneg_cases timeout) as [Hneg|Hpos].
  - pose proof (Nat2Z.is_nonneg (Z.to_nat (timeout / 500))). lia.
  - rewrite Z2Nat.id by (apply Z.div_pos; lia).
    pose proof (Z.mul_succ_div_gt timeout 500 ltac:(lia)). lia.
Qed.

Lemma checkMatchExact_settled (polls : nat) (nm : jsstring) (root : Elem H)
    (timeout start : Z) (w : World H) :
  (timeout < now w - start + 500 * Z.of_nat polls)%Z ->
  settled (fst (checkMatchExact polls nm root timeout start w)).
Proof.
  revert w. induction polls as [|polls IH]; intros w Hb; cbn [checkMatchExact].
  - destruct (findNodeExact nm root w); [exact I|].
    destruct (now w - start >? timeout)%Z eqn:E; [exact I|].
    rewrite Z.gtb_ltb in E. apply Z.ltb_ge in E. lia.
  - destruct (findNodeExact nm root w); [exact I|].
    destruct (now w - start >? timeout)%Z; [exact I|].
    apply IH. pose proof (sleep_advances H 500 w). lia.
Qed.

Lemma checkRegex_settled (polls : nat) (regex : RegExp) (root : Elem H)
    (timeout start : Z) (w : World H) :
  (timeout < now w - start + 500 * Z.of_nat polls)%Z ->
  settled (fst (checkRegex polls regex root timeout start w)).
Proof.
  revert w. induction polls as [|polls IH]; intros w Hb; cbn [checkRegex].
  - destruct (findNodesByRegex regex root w); [|exact I].
    destruct (now w - start >? timeout)%Z eqn:E; [exact I|].
    rewrite Z.gtb_ltb in E. apply Z.ltb_ge in E. lia.
  - destruct (findNodesByRegex regex root w); [|exact I].
    destruct (now w - start >? timeout)%Z; [exact I|].
    apply IH. pose proof (sleep_advances H 500 w). lia.
Qed.

Lemma waitForMatchExact_settles nm (root : Elem H) timeout :
  settles (waitForMatchExact nm root timeout).
Proof.
  intros w. unfold waitForMatchExact. apply checkMatchExact_settled.
  pose proof (pollBound_enough timeout). lia.
Qed.

Lemma waitForRegex_settles regex (root : Elem H) timeout :
  settles (waitForRegex regex root timeout).
Proof.
  intros w. unfold waitForRegex. apply checkRegex_settled.
  pose proof (pollBound_enough timeout). lia.
Qed.

(** ** Settling is preserved by sequencing *)

Lemma bind_settles {St A B : Type} (m : M St A) (k : A -> M St B) :
  settles m -> (forall a, settles (k a)) -> settles (bind m k).
Proof.
  intros Hm Hk s. unfold bind. specialize (Hm s).
  destruct (m s) as [[a|e| |] s']; simpl in *; try contradiction; [apply Hk|exact I].
Qed.

Lemma ret_settles {St A : Type} (a : A) : settles (@ret St A a).
Proof. intros s. exact I. Qed.

Lemma throw_settles {St A : Type} (e : exn) : settles (@throw St A e).
Proof. intros s. exact I. Qed.

Lemma gets_settles {St A : Type} (f : St -> A) : settles (gets f).
Proof. intros s. exact I. Qed.

Lemma modify_settles {St : Type} (f : St -> St) : settles (modify f).
Proof. intros s. exact I. Qed.

Lemma liftOutcome_settles {St A : Type} (o : outcome A) :
  settled o -> settles (@liftOutcome St A o).
Proof. intros Ho s. exact Ho. Qed.

Lemma countdown_settles (seconds : nat) : settles (@countdown H seconds).
Proof. unfold countdown. destruct (seconds =? 0)%nat; apply modify_settles. Qed.

Lemma clickFirstRegex_settles regex (root : Elem H) timeout :
  settles (clickFirstRegex regex root timeout).
Proof.
  unfold clickFirstRegex.
  apply bind_settles; [apply waitForRegex_settles|].
  intros [|node ms]; [apply throw_settles|].
  apply bind_settles; [apply gets_settles|].
  intros [span|]; [|apply ret_settles].
  apply bind_settles; [apply modify_settles|]. intros _.
  apply bind_settles; [apply countdown_settles|]. intros _.
  apply ret_settles.
Qed.

Lemma expand_settles nm (root : Elem H) : settles (expand nm root).
Proof.
  unfold expand.
  apply bind_settles; [apply waitForMatchExact_settles|]. intros node.
  apply bind_settles; [apply gets_settles|].
  intros [arrow|]; [|apply ret_settles].
  apply bind_settles; [apply gets_settles|].
  intros [|]; [apply ret_settles|].
  apply bind_settles; [apply modify_settles|]. intros _.
  apply bind_settles; [apply modify_settles|]. intros _.
  apply ret_settles.
Qed.

Lemma expandPath_settles names (root : Elem H) : settles (expandPath names root).
Proof.
  revert root. induction names as [|nm rest IH]; intros root.
  - apply ret_settles.
  - cbn [expandPath]. apply bind_settles; [apply expand_settles|]. exact IH.
Qed.

Lemma parsePersonName_settled (full : jsstring) : settled (parsePersonName full).
Proof. unfold parsePersonName. cbv zeta. destruct (_ <? _)%nat; exact I. Qed.

Lemma computeLetterAndRange_settled (last : jsstring) :
  settled (computeLetterAndRange last).
Proof. unfold computeLetterAndRange. cbv zeta. destruct (_ || _); exact I. Qed.

Lemma prepare_settles (nm : jsstring) : settles (@prepare H nm).
Proof.
  unfold prepare.
  apply bind_settles; [apply liftOutcome_settles, parsePersonName_settled|].
  intros pn.
  apply bind_settles; [apply liftOutcome_settles, computeLetterAndRange_settled|].
  intros lr. cbv zeta.
  apply bind_settles; [apply expandPath_settles|]. intros root.
  destruct (buildRegex_defined (last pn) (first pn))
    as ((re1 & E1) & (re2 & E2) & (re3 & E3) & (re4 & E4)).
  rewrite E1, E2, E3, E4.
  repeat (apply bind_settles; [apply liftOutcome_settles; exact I|]; intros ?).
  apply ret_settles.
Qed.

(** ** getHeadshotImageString *)

Lemma getHeadshotImageString_throws (root : Elem H) (w : World H) :
  getHeadshotImageString root w = (Thrown (ReferenceError (lit "val")), w).
Proof. reflexivity. Qed.

(** ** One tier *)

Lemma exactTier_eq (plan : tierPlan) (p : person) (w : World H) :
  exactTier plan (p, w) =
  match clickFirstRegex (exactRe plan) (rangeNode plan) 3000 w with
  | (Normal true, w1) => (Normal tt, (setFound true p, w1))
  | (Normal false, w1) => (Normal tt, (p, w1))
  | (Thrown _, w1) => (Normal tt, (p, w1))
  | (Continued, w1) => (Continued, (p, w1))
  | (Diverged, w1) => (Diverged, (p, w1))
  end.
Proof.
  unfold exactTier, tryCatch, bind, inWorld. cbn [fst snd].
  destruct (clickFirstRegex _ _ _ w) as [[[|]|e| |] w1]; reflexivity.
Qed.

Lemma fallbackTier_eq (regex : RegExp) (plan : tierPlan) (p : person) (w : World H) :
  fallbackTier regex plan (p, w) =
  match clickFirstRegex regex (rangeNode plan) 2000 w with
  | (Normal true, w1) => (Continued, (p, w1))
  | (Normal false, w1) => (Normal tt, (p, w1))
  | (Thrown _, w1) => (Normal tt, (p, w1))
  | (Continued, w1) => (Continued, (p, w1))
  | (Diverged, w1) => (Diverged, (p, w1))
  end.
Proof.
  unfold fallbackTier, tryCatch, bind, inWorld. cbn [fst snd].
  destruct (clickFirstRegex _ _ _ w) as [[[|]|e| |] w1]; reflexivity.
Qed.

Lemma exactTier_cases (plan : tierPlan) (p : person) (w w1 : World H)
    (r1 : outcome bool) :
  clickFirstRegex (exactRe plan) (rangeNode plan) 3000 w = (r1, w1) ->
  exactTier plan (p, w) =
  (Normal tt,
   (match r1 with Normal true => setFound true p | _ => p end, w1)).
Proof.
  intros E. rewrite exactTier_eq.
  pose proof (clickFirstRegex_settles (exactRe plan) (rangeNode plan) 3000 w) as Hs.
  rewrite E in *. destruct r1 as [[|]|e| |]; simpl in Hs; try contradiction;
    reflexivity.
Qed.

Lemma fallbackTier_cases (regex : RegExp) (plan : tierPlan) (p : person)
    (w w1 : World H) (r : outcome bool) :
  clickFirstRegex regex (rangeNode plan) 2000 w = (r, w1) ->
  fallbackTier regex plan (p, w) =
  (match r with Normal true => Continued | _ => Normal tt end, (p, w1)).
Proof.
  intros E. rewrite fallbackTier_eq.
  pose proof (clickFirstRegex_settles regex (rangeNode plan) 2000 w) as Hs.
  rewrite E in *. destruct r as [[|]|e| |]; simpl in Hs; try contradiction;
    reflexivity.
Qed.

Lemma fallbackTier_goesOn (regex : RegExp) (plan : tierPlan) (p : person)
    (w : World H) :
  exists o w1, fallbackTier regex plan (p, w) = (o, (p, w1)) /\ goesOn o.
Proof.
  destruct (clickFirstRegex regex (rangeNode plan) 2000 w) as [r w1] eqn:E.
  rewrite (fallbackTier_cases _ _ _ _ _ _ E).
  do 2 eexists. split; [reflexivity|].
  unfold goesOn. destruct r as [[|]|e| |]; auto.
Qed.

Lemma then_goesOn (m k : M (@St H) unit) (p : person) (w : World H) :
  (forall w, exists o w1, m (p, w) = (o, (p, w1)) /\ goesOn o) ->
  (forall w, exists o w1, k (p, w) = (o, (p, w1)) /\ goesOn o) ->
  exists o w1, bind m (fun _ => k) (p, w) = (o, (p, w1)) /\ goesOn o.
Proof.
  intros Hm Hk. unfold bind.
  destruct (Hm w) as (o & w1 & -> & [-> | ->]).
  - apply Hk.
  - do 2 eexists. split; [reflexivity|]. right. reflexivity.
Qed.

Lemma fallbacks_goesOn (plan : tierPlan) (p : person) (w : World H) :
  exists o w1,
    bind (fallbackTier (lastPlusInitialRe plan) plan)
      (fun _ => bind (fallbackTier (lastOnlyRe plan) plan)
         (fun _ => fallbackTier (firstLetterRe plan) plan)) (p, w)
    = (o, (p, w1)) /\ goesOn o.
Proof.
  apply then_goesOn; [intros; apply fallbackTier_goesOn|].
  intros w'. apply then_goesOn; intros; apply fallbackTier_goesOn.
Qed.

Lemma tryTiers_cases (plan : tierPlan) (p : person) (w w1 : World H)
    (r1 : outcome bool) :
  clickFirstRegex (exactRe plan) (rangeNode plan) 3000 w = (r1, w1) ->
  exists o w',
    tryTiers plan (p, w) =
    (o, (match r1 with Normal true => setFound true p | _ => p end, w'))
    /\ goesOn o.
Proof.
  intros E. unfold tryTiers. unfold bind at 1.
  rewrite (exactTier_cases _ _ _ _ _ E).
  apply fallbacks_goesOn.
Qed.

Lemma tryTiers_all_miss (plan : tierPlan) (p : person)
    (w0 w1 w2 w3 w4 : World H) (r1 r2 r3 r4 : outcome bool) :
  clickFirstRegex (exactRe plan) (rangeNode plan) 3000 w0 = (r1, w1) ->
  r1 <> Normal true ->
  clickFirstRegex (lastPlusInitialRe plan) (rangeNode plan) 2000 w1 = (r2, w2) ->
  r2 <> Normal true ->
  clickFirstRegex (lastOnlyRe plan) (rangeNode plan) 2000 w2 = (r3, w3) ->
  r3 <> Normal true ->
  clickFirstRegex (firstLetterRe plan) (rangeNode plan) 2000 w3 = (r4, w4) ->
  r4 <> Normal true ->
  tryTiers plan (p, w0) = (Normal tt, (p, w4)).
Proof.
  intros E1 N1 E2 N2 E3 N3 E4 N4. unfold tryTiers, bind.
  rewrite (exactTier_cases _ _ _ _ _ E1).
  replace (match r1 with Normal true => setFound true p | _ => p end) with p
    by (destruct r1 as [[|]|e| |]; congruence).
  rewrite (fallbackTier_cases _ _ _ _ _ _ E2).
  replace (match r2 with Normal true => Continued | _ => Normal tt end)
    with (Normal tt) by (destruct r2 as [[|]|e| |]; congruence).
  rewrite (fallbackTier_cases _ _ _ _ _ _ E3).
  replace (match r3 with Normal true => Continued | _ => Normal tt end)
    with (Normal tt) by (destruct r3 as [[|]|e| |]; congruence).
  rewrite (fallbackTier_cases _ _ _ _ _ _ E4).
  destruct r4 as [[|]|e| |]; congruence.
Qed.

(** ** The loop body *)

Lemma loopBody_prepared (p : person) (w w0 : World H) (plan : tierPlan) :
  prepare (name p) w = (Normal plan, w0) ->
  loopBody (p, w) = tryTiers plan (p, w0).
Proof.
  intros E. unfold loopBody, tryCatch, tryBlock, bind, gets, inWorld.
  cbn [fst snd]. rewrite E.
  destruct (clickFirstRegex (exactRe plan) (rangeNode plan) 3000 w0)
    as [r1 w1] eqn:E1.
  destruct (tryTiers_cases plan p w0 w1 r1 E1) as (o & w' & -> & [-> | ->]);
    reflexivity.
Qed.

Lemma loopBody_not_prepared (p : person) (w w0 : World H) (e : exn) :
  prepare (name p) w = (Thrown e, w0) ->
  tryBlock (p, w) = (Thrown e, (p, w0)) /\
  loopBody (p, w) = (Normal tt, (p, w0)).
Proof.
  intros E. unfold loopBody, tryCatch, tryBlock, bind, gets, inWorld.
  cbn [fst snd]. rewrite E. auto.
Qed.

Lemma tryBlock_thrown (p p1 : person) (w w1 : World H) (e : exn) :
  tryBlock (p, w) = (Thrown e, (p1, w1)) ->
  loopBody (p, w) = (Normal tt, (p1, w1)).
Proof.
  intros E. unfold loopBody, tryCatch. rewrite E. reflexivity.
Qed.

(** Whatever happens to a person, the loop goes on, and the entry keeps
    its name and its [headshotImgString]. *)
Lemma loopBody_goesOn (p : person) (w : World H) :
  exists o p' w',
    loopBody (p, w) = (o, (p', w')) /\ goesOn o /\
    name p' = name p /\ headshotImgString p' = headshotImgString p.
Proof.
  pose proof (prepare_settles (name p) w) as Hs.
  destruct (prepare (name p) w) as [[plan|e| |] w0] eqn:E;
    simpl in Hs; try contradiction.
  - rewrite (loopBody_prepared p w w0 plan E).
    destruct (clickFirstRegex (exactRe plan) (rangeNode plan) 3000 w0)
      as [r1 w1] eqn:E1.
    destruct (tryTiers_cases plan p w0 w1 r1 E1) as (o & w' & -> & Ho).
    do 3 eexists. split; [reflexivity|]. split; [exact Ho|].
    destruct r1 as [[|]|e| |]; auto.
  - destruct (loopBody_not_prepared p w w0 e E) as [_ ->].
    do 3 eexists. split; [reflexivity|]. split; [left; reflexivity|]. auto.
Qed.

Lemma forEachPerson_cons (p : person) (rest : list person) (w : World H)
    (o : outcome unit) (p' : person) (w' : World H) :
  loopBody (p, w) = (o, (p', w')) -> goesOn o ->
  forEachPerson (p :: rest) w =
  match forEachPerson rest w' with
  | (Normal out, w'') => (Normal (p' :: out), w'')
  | r => r
  end.
Proof.
  intros E [-> | ->]; cbn [forEachPerson]; rewrite E; reflexivity.
Qed.

Lemma forEachPerson_completes (people : list person) (w : World H) :
  exists out w',
    forEachPerson people w = (Normal out, w') /\
    map name out = map name people /\
    map headshotImgString out = map headshotImgString people.
Proof.
  revert w. induction people as [|p rest IH]; intros w.
  - exists [], w. auto.
  - destruct (loopBody_goesOn p w) as (o & p' & w' & E & Ho & Hn & Hh).
    rewrite (forEachPerson_cons p rest w o p' w' E Ho).
    destruct (IH w') as (out & w'' & -> & Hns & Hhs).
    exists (p' :: out), w''. cbn [map]. rewrite Hn, Hh, Hns, Hhs. auto.
Qed.

Lemma main_empty (w : World H) : main [] w = (Normal None, w).
Proof. reflexivity. Qed.

Lemma main_nonempty (names : list jsstring) (w : World H) :
  names <> [] ->
  main names w =
  match forEachPerson (map newPerson names) w with
  | (Normal out, w') => (Normal (Some out), w')
  | (Thrown e, w') => (Thrown e, w')
  | (Continued, w') => (Continued, w')
  | (Diverged, w') => (Diverged, w')
  end.
Proof. destruct names; [congruence|reflexivity]. Qed.

Lemma map_name_newPerson (names : list jsstring) :
  map name (map newPerson names) = names.
Proof. rewrite map_map. apply map_id. Qed.

End ScriptFacts.

(** * The batch *)

(** C6.  The loop runs to its end on every list of names and returns one
    entry per name, in order; and an exception that escapes the statements
    of the [try] for one person is caught in the loop body, the persons
    after it being processed from the world it left. *)
Theorem batch_runs_to_completion (H : Host) (names : list jsstring) (w : World H) :
  (exists out w',
      forEachPerson (map newPerson names) w = (Normal out, w') /\
      map name out = names /\
      (names <> [] -> main names w = (Normal (Some out), w')))
  /\
  (forall p rest e p1 w1,
      tryBlock (p, w) = (Thrown e, (p1, w1)) ->
      exists out w',
        forEachPerson rest w1 = (Normal out, w') /\
        forEachPerson (p :: rest) w = (Normal (p1 :: out), w')).
Proof.
  split.
  - destruct (forEachPerson_completes (map newPerson names) w)
      as (out & w' & E & Hn & _).
    exists out, w'. split; [exact E|].
    split; [rewrite Hn; apply map_name_newPerson|].
    intros Hne. rewrite (main_nonempty names w Hne), E. reflexivity.
  - intros p rest e p1 w1 E.
    destruct (forEachPerson_completes rest w1) as (out & w' & Er & _).
    exists out, w'. split; [exact Er|].
    rewrite (forEachPerson_cons p rest w (Normal tt) p1 w1
               (tryBlock_thrown p p1 w w1 e E) (or_introl eq_refl)).
    rewrite Er. reflexivity.
Qed.

Lemma batch_runs_to_completion_witness :
  (@main ChainHost.smithFolder [lit "Jane"; lit "Jane Smith"] 0%Z
   = (Normal (Some [ newPerson (lit "Jane");
                     setFound true (newPerson (lit "Jane Smith")) ]),
      121500%Z)) /\
  exists out w',
    @forEachPerson ChainHost.smithFolder [newPerson (lit "Jane Smith")] 0%Z
    = (Normal out, w') /\
    @forEachPerson ChainHost.smithFolder
      [newPerson (lit "Jane"); newPerson (lit "Jane Smith")] 0%Z
    = (Normal (newPerson (lit "Jane") :: out), w').
Proof.
  destruct (batch_runs_to_completion ChainHost.smithFolder
              [lit "Jane"; lit "Jane Smith"] 0%Z)
    as [(out & w' & E & _ & Hmain) Hcatch].
  split.
  - rewrite Hmain by discriminate. vm_compute in E. vm_compute.
    injection E as <- <-. reflexivity.
  - apply (Hcatch (newPerson (lit "Jane")) [newPerson (lit "Jane Smith")]
             (Error (lit "Expected " ++ ["034"] ++ lit "first last" ++ ["034"]
                       ++ lit " but got: Jane"))).
    vm_compute. reflexivity.
Defined.

(** C8.  getHeadshotImageString throws a ReferenceError on every call: its
    [return] reads [val], which is declared in the [if] block and in no
    scope the [return] can see.  So no entry of the output ever holds
    anything but [null] as its [headshotImgString]. *)
Theorem headshot_never_extracted (H : Host) :
  (forall (searchRoot : Elem H) (w : World H),
      getHeadshotImageString searchRoot w
      = (Thrown (ReferenceError (lit "val")), w))
  /\
  (forall (names : list jsstring) (w : World H),
      exists out w',
        forEachPerson (map newPerson names) w = (Normal out, w') /\
        Forall (fun p => headshotImgString p = VNull) out).
Proof.
  split; [exact getHeadshotImageString_throws|].
  intros names w.
  destruct (forEachPerson_completes (map newPerson names) w)
    as (out & w' & E & _ & Hh).
  exists out, w'. split; [exact E|].
  rewrite map_map in Hh. cbn [newPerson headshotImgString] in Hh.
  apply Forall_forall. intros p Hp.
  apply (in_map headshotImgString) in Hp. rewrite Hh in Hp.
  apply in_map_iff in Hp as (x & <- & _). reflexivity.
Qed.

(** C10.  A name that sanitizes to fewer than two words makes
    parsePersonName throw; nothing has touched the tree by then, the entry
    stays as it was created, and the loop goes on with the next name. *)
Theorem one_word_name_skipped (H : Host) (nm : jsstring) (rest : list person)
    (w : World H) :
  (List.length (wsTokens (sanitizeName nm)) < 2)%nat ->
  (exists e, parsePersonName nm = Thrown e /\
             tryBlock (newPerson nm, w) = (Thrown e, (newPerson nm, w))) /\
  loopBody (newPerson nm, w) = (Normal tt, (newPerson nm, w)) /\
  exists out w',
    forEachPerson rest w = (Normal out, w') /\
    forEachPerson (newPerson nm :: rest) w
    = (Normal ({| name := nm; found := false; headshotImgString := VNull |} :: out),
       w').
Proof.
  intros Hlen.
  pose proof (parsePersonName_one_word nm Hlen) as Ep.
  assert (Eprep : prepare (name (newPerson nm)) w
                  = (Thrown (Error (lit "Expected " ++ ["034"] ++ lit "first last"
                                      ++ ["034"] ++ lit " but got: " ++ nm)), w)).
  { unfold prepare, bind, liftOutcome. cbn [name newPerson]. rewrite Ep.
    reflexivity. }
  destruct (loopBody_not_prepared _ _ _ _ Eprep) as [Et El].
  split; [eexists; split; [exact Ep|exact Et]|].
  split; [exact El|].
  destruct (forEachPerson_completes rest w) as (out & w' & Er & _).
  exists out, w'. split; [exact Er|].
  rewrite (forEachPerson_cons _ rest w _ _ _ El (or_introl eq_refl)), Er.
  reflexivity.
Qed.

Lemma one_word_name_skipped_witness :
  @loopBody ChainHost.smithFolder (newPerson (lit " Cher_ "), 0%Z)
  = (Normal tt, (newPerson (lit " Cher_ "), 0%Z)) /\
  exists out w',
    @forEachPerson ChainHost.smithFolder [newPerson (lit "Jane Smith")] 0%Z
    = (Normal out, w') /\
    @forEachPerson ChainHost.smithFolder
      [newPerson (lit " Cher_ "); newPerson (lit "Jane Smith")] 0%Z
    = (Normal (newPerson (lit " Cher_ ") :: out), w').
Proof.
  apply (one_word_name_skipped ChainHost.smithFolder (lit " Cher_ ")
           [newPerson (lit "Jane Smith")] 0%Z).
  vm_compute. lia.
Defined.

(** C5.  When the path was expanded and none of the four tiers clicks a
    node, the entry is left not found, with [null] for its
    [headshotImgString], and the loop goes on with the next person. *)
Theorem no_match_not_found (H : Host) (nm : jsstring) (rest : list person)
    (plan : tierPlan) (w w0 w1 w2 w3 w4 : World H) (r1 r2 r3 r4 : outcome bool) :
  prepare nm w = (Normal plan, w0) ->
  clickFirstRegex (exactRe plan) (rangeNode plan) 3000 w0 = (r1, w1) ->
  r1 <> Normal true ->
  clickFirstRegex (lastPlusInitialRe plan) (rangeNode plan) 2000 w1 = (r2, w2) ->
  r2 <> Normal true ->
  clickFirstRegex (lastOnlyRe plan) (rangeNode plan) 2000 w2 = (r3, w3) ->
  r3 <> Normal true ->
  clickFirstRegex (firstLetterRe plan) (rangeNode plan) 2000 w3 = (r4, w4) ->
  r4 <> Normal true ->
  loopBody (newPerson nm, w)
  = (Normal tt,
     ({| name := nm; found := false; headshotImgString := VNull |}, w4)) /\
  exists out w',
    forEachPerson rest w4 = (Normal out, w') /\
    forEachPerson (newPerson nm :: rest) w
    = (Normal ({| name := nm; found := false; headshotImgString := VNull |} :: out),
       w').
Proof.
  intros Ep E1 N1 E2 N2 E3 N3 E4 N4.
  assert (El : loopBody (newPerson nm, w) = (Normal tt, (newPerson nm, w4))).
  { rewrite (loopBody_prepared (newPerson nm) w w0 plan Ep).
    exact (tryTiers_all_miss plan _ w0 w1 w2 w3 w4 r1 r2 r3 r4
             E1 N1 E2 N2 E3 N3 E4 N4). }
  split; [exact El|].
  destruct (forEachPerson_completes rest w4) as (out & w' & Er & _).
  exists out, w'. split; [exact Er|].
  rewrite (forEachPerson_cons _ rest w _ _ _ El (or_introl eq_refl)), Er.
  reflexivity.
Qed.

Lemma no_match_not_found_witness :
  @loopBody ChainHost.emptyFolder (newPerson (lit "Jane Smith"), 0%Z)
  = (Normal tt,
     ({| name := lit "Jane Smith"; found := false; headshotImgString := VNull |},
      12500%Z)) /\
  exists out w',
    @forEachPerson ChainHost.emptyFolder [newPerson (lit "Jane")] 12500%Z
    = (Normal out, w') /\
    @forEachPerson ChainHost.emptyFolder
      [newPerson (lit "Jane Smith"); newPerson (lit "Jane")] 0%Z
    = (Normal ({| name := lit "Jane Smith"; found := false;
                  headshotImgString := VNull |} :: out),
       w').
Proof.
  eapply (no_match_not_found ChainHost.emptyFolder (lit "Jane Smith")
            [newPerson (lit "Jane")]);
    first [ vm_compute; reflexivity | discriminate ].
Defined.

(** C1, as the code has it.  Only the exact tier marks a person as found:
    the entry of the final output has [found = true] when the exact tier
    clicked a node and [found = false] otherwise.  When the exact tier
    clicked no node, the first fallback tier that clicks one ends the
    query there, the tiers after it are not tried, and the entry is as it
    was made: not found, with [null] as its [headshotImgString]. *)
Theorem found_iff_exact_tier (H : Host) (nm : jsstring) (rest : list person)
    (plan : tierPlan) (w w0 w1 w' : World H) (r1 : outcome bool)
    (o : outcome unit) (p' : person) :
  prepare nm w = (Normal plan, w0) ->
  clickFirstRegex (exactRe plan) (rangeNode plan) 3000 w0 = (r1, w1) ->
  loopBody (newPerson nm, w) = (o, (p', w')) ->
  (found p' = match r1 with Normal true => true | _ => false end /\
   exists out w'',
     forEachPerson (newPerson nm :: rest) w = (Normal (p' :: out), w''))
  /\
  (r1 <> Normal true ->
   forall (w2 w3 w4 : World H) (r2 r3 : outcome bool),
     (clickFirstRegex (lastPlusInitialRe plan) (rangeNode plan) 2000 w1
      = (Normal true, w2) ->
      (o, (p', w'))
      = (Continued,
         ({| name := nm; found := false; headshotImgString := VNull |}, w2)))
     /\
     (clickFirstRegex (lastPlusInitialRe plan) (rangeNode plan) 2000 w1
      = (r2, w2) ->
      r2 <> Normal true ->
      clickFirstRegex (lastOnlyRe plan) (rangeNode plan) 2000 w2
      = (Normal true, w3) ->
      (o, (p', w'))
      = (Continued,
         ({| name := nm; found := false; headshotImgString := VNull |}, w3)))
     /\
     (clickFirstRegex (lastPlusInitialRe plan) (rangeNode plan) 2000 w1
      = (r2, w2) ->
      r2 <> Normal true ->
      clickFirstRegex (lastOnlyRe plan) (rangeNode plan) 2000 w2 = (r3, w3) ->
      r3 <> Normal true ->
      clickFirstRegex (firstLetterRe plan) (rangeNode plan) 2000 w3
      = (Normal true, w4) ->
      (o, (p', w'))
      = (Continued,
         ({| name := nm; found := false; headshotImgString := VNull |}, w4)))).
Proof.
  intros Ep E1 El. split.
  - pose proof El as El'.
    rewrite (loopBody_prepared (newPerson nm) w w0 plan Ep) in El'.
    destruct (tryTiers_cases plan (newPerson nm) w0 w1 r1 E1)
      as (o1 & w1' & Et & Ho).
    rewrite Et in El'. injection El' as <- <- <-.
    split; [destruct r1 as [[|]|e| |]; reflexivity|].
    rewrite (forEachPerson_cons _ rest w o1 _ w1' El Ho).
    destruct (forEachPerson_completes rest w1') as (out & w'' & -> & _).
    exists out, w''. reflexivity.
  - intros N1 w2 w3 w4 r2 r3. rewrite <- El.
    rewrite (loopBody_prepared (newPerson nm) w w0 plan Ep).
    unfold tryTiers, bind. rewrite (exactTier_cases _ _ _ _ _ E1).
    replace (match r1 with Normal true => setFound true (newPerson nm)
                      | _ => newPerson nm end)
      with (newPerson nm) by (destruct r1 as [[|]|e| |]; congruence).
    split; [|split].
    + intros E2. rewrite (fallbackTier_cases _ _ _ _ _ _ E2). reflexivity.
    + intros E2 N2 E3. rewrite (fallbackTier_cases _ _ _ _ _ _ E2).
      replace (match r2 with Normal true => Continued | _ => Normal tt end)
        with (@Normal unit tt) by (destruct r2 as [[|]|e| |]; congruence).
      rewrite (fallbackTier_cases _ _ _ _ _ _ E3). reflexivity.
    + intros E2 N2 E3 N3 E4. rewrite (fallbackTier_cases _ _ _ _ _ _ E2).
      replace (match r2 with Normal true => Continued | _ => Normal tt end)
        with (@Normal unit tt) by (destruct r2 as [[|]|e| |]; congruence).
      rewrite (fallbackTier_cases _ _ _ _ _ _ E3).
      replace (match r3 with Normal true => Continued | _ => Normal tt end)
        with (@Normal unit tt) by (destruct r3 as [[|]|e| |]; congruence).
      rewrite (fallbackTier_cases _ _ _ _ _ _ E4). reflexivity.
Qed.

Lemma found_iff_exact_tier_witness :
  (exists o p' w',
      @loopBody ChainHost.smithFolder (newPerson (lit "Jane Smith"), 0%Z)
      = (o, (p', w')) /\ found p' = true) /\
  (exists o p' w',
      @loopBody ChainHost.smithFolder (newPerson (lit "John Smith"), 0%Z)
      = (o, (p', w')) /\
      (found p' = false /\
       exists out w'',
         @forEachPerson ChainHost.smithFolder
           [newPerson (lit "John Smith"); newPerson (lit "Jane")] 0%Z
         = (Normal (p' :: out), w'')) /\
      (o, (p', w'))
      = (Continued,
         ({| name := lit "John Smith"; found := false;
             headshotImgString := VNull |}, 65000%Z))).
Proof.
  split.
  - query_found ChainHost.smithFolder (lit "Jane Smith")
      ltac:(fun plan w0 w1 w' r1 o p' Ep E1 El =>
              exact (proj1 (proj1 (found_iff_exact_tier ChainHost.smithFolder
                       (lit "Jane Smith") [] plan 0%Z w0 w1 w' r1 o p'
                       Ep E1 El)))).
  - query_found ChainHost.smithFolder (lit "John Smith")
      ltac:(fun plan w0 w1 w' r1 o p' Ep E1 El =>
        run (@clickFirstRegex ChainHost.smithFolder (lastPlusInitialRe plan)
               (rangeNode plan) 2000%Z w1) ltac:(fun v2 E2 =>
        match v2 with
        | (_, ?w2) =>
            pose proof (found_iff_exact_tier ChainHost.smithFolder
                          (lit "John Smith") [newPerson (lit "Jane")] plan
                          0%Z w0 w1 w' r1 o p' Ep E1 El) as [T1 T2];
            split; [exact T1|];
            exact (proj1 (T2 ltac:(discriminate) w2 w2 w2 r1 r1) E2)
        end)).
Defined.

(** C1, as the claim has it, fails: John Smith is not in the folder, the
    exact tier times out, the last + first-initial tier finds and clicks
    the card of Jane Smith, and John Smith's entry says not found, with no
    reference. *)
Lemma fallback_success_not_found :
  exists plan w0 e w1 w2,
    @prepare ChainHost.smithFolder (lit "John Smith") 0%Z = (Normal plan, w0) /\
    clickFirstRegex (exactRe plan) (rangeNode plan) 3000 w0 = (Thrown e, w1) /\
    clickFirstRegex (lastPlusInitialRe plan) (rangeNode plan) 2000 w1
    = (Normal true, w2) /\
    @main ChainHost.smithFolder [lit "John Smith"] 0%Z
    = (Normal (Some [{| name := lit "John Smith"; found := false;
                        headshotImgString := VNull |}]), w2).
Proof.
  do 5 eexists.
  split; [vm_compute; reflexivity|].
  split; [vm_compute; reflexivity|].
  split; vm_compute; reflexivity.
Qed.

(** * More on the name helpers *)

(** X1.  canonicalKebab returns a string of [[a-z0-9-]] in which no hyphen
    stands first, last or next to another hyphen; and it returns every such
    string unchanged, so these strings are exactly its results. *)
Theorem canonicalKebab_image (s : jsstring) :
  (forallb isKebabChar (canonicalKebab s) = true /\
   noAdjacent isHyphen (canonicalKebab s) = true /\
   headIs isHyphen (canonicalKebab s) = false /\
   lastIs isHyphen (canonicalKebab s) = false)
  /\
  (forallb isKebabChar s = true ->
   noAdjacent isHyphen s = true ->
   headIs isHyphen s = false ->
   lastIs isHyphen s = false ->
   canonicalKebab s = s).
Proof.
  split; [exact (canonicalKebab_kebab s)|].
  intros H1 H2 H3 H4. apply canonicalKebab_fixed. repeat split; assumption.
Qed.

Lemma canonicalKebab_image_witness :
  canonicalKebab (lit "van-der-berg-2") = lit "van-der-berg-2".
Proof.
  apply (proj2 (canonicalKebab_image (lit "van-der-berg-2"))); reflexivity.
Defined.

(** X2.  On a string of ASCII characters sanitizeName returns a string of
    ASCII characters without upper-case letters, circumflex, grave accent,
    hyphen or underscore, whose only white space is single spaces between
    words; and it returns every such string unchanged. *)
Theorem sanitizeName_image (s : jsstring) :
  isAsciiString s = true ->
  (isAsciiString (sanitizeName s) = true /\
   forallb sanitizedChar (sanitizeName s) = true /\
   noAdjacent isWhiteSpace (sanitizeName s) = true /\
   headIs isWhiteSpace (sanitizeName s) = false /\
   lastIs isWhiteSpace (sanitizeName s) = false)
  /\
  (forallb sanitizedChar s = true ->
   noAdjacent isWhiteSpace s = true ->
   headIs isWhiteSpace s = false ->
   lastIs isWhiteSpace s = false ->
   sanitizeName s = s).
Proof.
  intros Hs. split.
  - split; [exact (sanitizeName_ascii s Hs)|exact (sanitizeName_sanitized s)].
  - intros H1 H2 H3 H4. apply sanitizeName_fixed. repeat split; assumption.
Qed.

Lemma sanitizeName_image_witness :
  isAsciiString (lit "mary jane o'brien") = true /\
  sanitizeName (lit "mary jane o'brien") = lit "mary jane o'brien".
Proof.
  split; [reflexivity|].
  apply (proj2 (sanitizeName_image (lit "mary jane o'brien") eq_refl));
    reflexivity.
Defined.

Lemma toLowerCase_toUpperCase (s : jsstring) :
  toLowerCase (toUpperCase s) = toLowerCase s.
Proof.
  unfold toLowerCase, toUpperCase. rewrite map_map.
  apply map_ext, lowerChar_upperChar.
Qed.

Lemma separator_lowerChar (c : ascii) :
  lowerChar (if isHyphen c || Ascii.eqb c "_" then " " else c)
  = if isHyphen (lowerChar c) || Ascii.eqb (lowerChar c) "_" then " "
    else lowerChar c.
Proof. each_char c; reflexivity. Qed.

Lemma separator_isDiacritic (c : ascii) :
  isDiacritic (if isHyphen c || Ascii.eqb c "_" then " " else c)
  = isDiacritic c.
Proof. each_char c; reflexivity. Qed.

Lemma separator_twice (c : ascii) :
  let sep := fun c => if isHyphen c || Ascii.eqb c "_" then " " else c in
  sep (sep c) = sep c.
Proof. each_char c; reflexivity. Qed.

Lemma filter_map_commute {A : Type} (f : A -> A) (q : A -> bool) (l : list A) :
  (forall a, q (f a) = q a) ->
  filter q (map f l) = map f (filter q l).
Proof.
  intros Hq. induction l as [|a t IH]; [reflexivity|].
  cbn [map filter]. rewrite Hq. destruct (q a); cbn [map]; rewrite IH; reflexivity.
Qed.

(** X3.  Names of ASCII characters are compared without regard to case:
    the two normalisations give the same for a name and for the name in
    upper case.  And sanitizeName takes hyphen, underscore and space for
    the same separator. *)
Theorem names_insensitive (s : jsstring) :
  isAsciiString s = true ->
  sanitizeName (toUpperCase s) = sanitizeName s /\
  canonicalKebab (toUpperCase s) = canonicalKebab s /\
  sanitizeName (replaceEach (fun c => isHyphen c || Ascii.eqb c "_") " " s)
  = sanitizeName s.
Proof.
  intros _. split; [|split].
  - unfold sanitizeName. rewrite toLowerCase_toUpperCase. reflexivity.
  - unfold canonicalKebab. rewrite toLowerCase_toUpperCase. reflexivity.
  - unfold sanitizeName, normalizeNFD, removeAll, replaceEach, toLowerCase.
    do 2 f_equal.
    rewrite map_map.
    rewrite (map_ext _ _ separator_lowerChar).
    rewrite <- (map_map lowerChar
                  (fun c => if isHyphen c || Ascii.eqb c "_" then " " else c)).
    rewrite filter_map_commute
      by (intros a; rewrite separator_isDiacritic; reflexivity).
    rewrite map_map. apply map_ext. exact separator_twice.
Qed.

Lemma names_insensitive_witness :
  isAsciiString (lit "Anna-Maria_van Dyke") = true /\
  sanitizeName (toUpperCase (lit "Anna-Maria_van Dyke"))
  = sanitizeName (lit "Anna-Maria_van Dyke") /\
  canonicalKebab (toUpperCase (lit "Anna-Maria_van Dyke"))
  = canonicalKebab (lit "Anna-Maria_van Dyke") /\
  sanitizeName
    (replaceEach (fun c => isHyphen c || Ascii.eqb c "_") " "
       (lit "Anna-Maria_van Dyke"))
  = sanitizeName (lit "Anna-Maria_van Dyke").
Proof.
  split; [reflexivity|].
  apply (names_insensitive (lit "Anna-Maria_van Dyke")). reflexivity.
Defined.

(** ** parsePersonName on two words or more *)

Lemma splitBy_nonempty (p : ascii -> bool) (s : jsstring) : splitBy p s <> [].
Proof.
  destruct s as [|c t]; [discriminate|].
  simpl. destruct (p c); [discriminate|]. destruct (splitBy p t); discriminate.
Qed.

Lemma join_cons (sep part : jsstring) (parts : list jsstring) :
  parts <> [] -> join sep (part :: parts) = part ++ sep ++ join sep parts.
Proof. destruct parts; [congruence|reflexivity]. Qed.

(** Joining the parts of a split with the separator gives the string
    back. *)
Lemma join_split (sep : ascii) (s : jsstring) :
  join [sep] (split sep s) = s.
Proof.
  unfold split. induction s as [|c t IH]; [reflexivity|].
  cbn [splitBy]. destruct (Ascii.eqb sep c) eqn:E.
  - apply Ascii.eqb_eq in E. subst c.
    rewrite join_cons by apply splitBy_nonempty. rewrite IH. reflexivity.
  - destruct (splitBy (Ascii.eqb sep) t) as [|part parts] eqn:Es.
    + exfalso. exact (splitBy_nonempty _ _ Es).
    + destruct parts as [|q qs].
      * cbn [join] in *. rewrite IH. reflexivity.
      * rewrite join_cons in * by discriminate.
        rewrite <- IH. reflexivity.
Qed.

(** X4.  On a name of two words or more parsePersonName returns the first
    word as the first name and the other words, joined by single spaces, as
    the last name; the two, put together with a space, are the sanitized
    name. *)
Theorem parsePersonName_words (full : jsstring) :
  (2 <= List.length (wsTokens (sanitizeName full)))%nat ->
  exists word rest,
    wsTokens (sanitizeName full) = word :: rest /\
    rest <> [] /\
    parsePersonName full
    = Normal {| first := word; last := join (lit " ") rest |} /\
    word ++ lit " " ++ join (lit " ") rest = sanitizeName full.
Proof.
  intros Hlen. unfold parsePersonName.
  pose proof (sanitizeName_sanitized full) as Hs.
  pose proof (join_split " " (sanitizeName full)) as Hj.
  destruct (sanitizeName full) as [|c t] eqn:Es;
    [change (wsTokens []) with (@nil jsstring) in Hlen; simpl in Hlen; lia|].
  rewrite sanitized_split in * by (assumption || discriminate).
  destruct (wsTokens (c :: t)) as [|word [|r rest]] eqn:Ew;
    try (simpl in Hlen; lia).
  exists word, (r :: rest). repeat split; try discriminate.
  rewrite <- Hj. apply eq_sym, join_cons. discriminate.
Qed.

Lemma parsePersonName_words_witness :
  exists word rest,
    wsTokens (sanitizeName (lit " Anna_Maria  VAN-DYKE ")) = word :: rest /\
    rest <> [] /\
    parsePersonName (lit " Anna_Maria  VAN-DYKE ")
    = Normal {| first := word; last := join (lit " ") rest |} /\
    word ++ lit " " ++ join (lit " ") rest
    = sanitizeName (lit " Anna_Maria  VAN-DYKE ").
Proof.
  apply (parsePersonName_words (lit " Anna_Maria  VAN-DYKE ")).
  vm_compute. lia.
Defined.

(** ** computeLetterAndRange on a second letter *)

Lemma bucketOfSecond_encloses (d : ascii) :
  isLowerAZ d = true ->
  match bucketOfSecond (Some d) with
  | ([bs], [be]) => (code bs <=? code d)%nat && (code d <=? code be)%nat
  | _ => false
  end = true.
Proof. each_char d; vm_compute; intros; solve [reflexivity | discriminate]. Qed.

Lemma bucketOfSecond_letter (d : ascii) :
  isLowerAZ d = true ->
  exists bs be,
    bucketOfSecond (Some d) = ([bs], [be]) /\
    (code bs <= code d <= code be)%nat.
Proof.
  intros E. apply bucketOfSecond_encloses in E.
  destruct (bucketOfSecond (Some d)) as [[|bs [|? ?]] [|be [|? ?]]];
    try discriminate E.
  apply andb_prop in E as [E1 E2].
  apply Nat.leb_le in E1, E2. exists bs, be. auto.
Qed.

(** X5.  When the second character of the canonical last name is a letter,
    the range folder is the one whose two letters enclose it. *)
Theorem bucket_contains_second_letter (last : jsstring) (c d : ascii)
    (rest : jsstring) :
  removeAll isHyphen (canonicalKebab last) = c :: d :: rest ->
  isAsciiLetter c = true ->
  isLowerAZ d = true ->
  exists bs be,
    computeLetterAndRange last
    = Normal {| letterFolder := [upperChar c];
                rangeFolder := [upperChar c; bs; "-"; upperChar c; be] |} /\
    In (bs, be) [("a", "i"); ("j", "r"); ("s", "z")] /\
    (code bs <= code d <= code be)%nat.
Proof.
  intros E Hc Hd.
  rewrite (computeLetterAndRange_letter last c (d :: rest) E Hc).
  cbn [hd_error].
  destruct (bucketOfSecond_letter d Hd) as (bs & be & Eb & Hr).
  pose proof (bucketOfSecond_range (Some d)) as Hin.
  rewrite Eb in *. exists bs, be. split; [reflexivity|]. split; [|exact Hr].
  cbn [In] in *.
  destruct Hin as [Hin|[Hin|[Hin|[]]]]; injection Hin as <- <-; auto.
Qed.

Lemma bucket_contains_second_letter_witness :
  exists bs be,
    computeLetterAndRange (lit "O'Rourke")
    = Normal {| letterFolder := lit "O";
                rangeFolder := ["O"; bs; "-"; "O"; be] |} /\
    In (bs, be) [("a", "i"); ("j", "r"); ("s", "z")] /\
    (code bs <= code "r" <= code be)%nat.
Proof.
  apply (bucket_contains_second_letter (lit "O'Rourke") "o" "r" (lit "ourke"));
    reflexivity.
Defined.

(** * What the fallback expressions match *)

Lemma kebabClass_lower (c : ascii) :
  atomMatches true kebabClass c = isKebabChar (lowerChar c).
Proof. each_char c; vm_compute; reflexivity. Qed.

Lemma hyphen_matches (c : ascii) :
  atomMatches true (AChar "-") c = true -> c = "-".
Proof. each_char c; vm_compute; intros; solve [reflexivity | discriminate]. Qed.

Lemma lowerChar_twice (c : ascii) : lowerChar (lowerChar c) = lowerChar c.
Proof. each_char c; reflexivity. Qed.

Lemma toLowerCase_twice (s : jsstring) :
  toLowerCase (toLowerCase s) = toLowerCase s.
Proof.
  unfold toLowerCase. rewrite map_map. apply map_ext, lowerChar_twice.
Qed.

Lemma forallb_kebab_lower (s : jsstring) :
  forallb (atomMatches true kebabClass) s = true ->
  forallb isKebabChar (toLowerCase s) = true.
Proof.
  unfold toLowerCase. induction s as [|c t IH]; [reflexivity|].
  cbn [forallb map]. intros E. apply andb_prop in E as [Ec Et].
  rewrite kebabClass_lower in Ec. rewrite Ec, IH by exact Et. reflexivity.
Qed.

(** [[a-z0-9-]*-\d{4}$], read backwards from a match *)
Lemma star_suffix_elim (s : jsstring) :
  forall b,
    starK true kebabClass (matchTerms true suffixTerms) b s = true ->
    exists mid digits,
      s = mid ++ lit "-" ++ digits /\
      forallb (atomMatches true kebabClass) mid = true /\
      List.length digits = 4%nat /\ forallb isDigit digits = true.
Proof.
  induction s as [|c t IH]; intros b E; cbn [starK] in E.
  - rewrite orb_false_r in E. discriminate E.
  - apply orb_prop in E as [E|E].
    + unfold suffixTerms in E. cbn [matchTerms repK] in E.
      apply andb_prop in E as [Eh Ed].
      apply hyphen_matches in Eh. subst c.
      apply (proj1 (four_digits false t)) in Ed as [Hn Hd].
      exists [], t. auto.
    + apply andb_prop in E as [Ec E].
      apply IH in E as (mid & digits & -> & Hm & Hn & Hd).
      exists (c :: mid), digits. cbn [forallb]. rewrite Ec, Hm. auto.
Qed.

(** [^P[a-z0-9-]*-\d{4}$] for a literal [P] *)
Lemma star_terms_match (text P candidate : jsstring) :
  forallb isKebabChar P = true ->
  test {| sourceText := text;
          source := TBegin :: chars P ++ TAtom kebabClass QStar :: suffixTerms;
          ignoreCase := true |} candidate = true <->
  exists mid digits,
    forallb isKebabChar mid = true /\
    List.length digits = 4%nat /\ forallb isDigit digits = true /\
    eqIgnoreCase candidate (P ++ mid ++ lit "-" ++ digits).
Proof.
  intros HP. unfold eqIgnoreCase. split.
  - unfold test. cbn [source ignoreCase]. rewrite searchFrom_begin.
    intros E. apply chars_elim in E as (pre & suf & -> & Hpre & Hr).
    cbn [matchTerms] in Hr.
    apply star_suffix_elim in Hr as (mid & digits & -> & Hm & Hn & Hd).
    exists (toLowerCase mid), digits.
    split; [apply forallb_kebab_lower, Hm|]. split; [exact Hn|].
    split; [exact Hd|].
    rewrite !toLowerCase_app, toLowerCase_twice, Hpre. reflexivity.
  - intros (mid & digits & Hm & Hn & Hd & E).
    rewrite test_begin, E, !toLowerCase_app.
    rewrite (toLowerCase_kebab P HP), (toLowerCase_kebab mid Hm),
      (toLowerCase_digits digits Hd).
    change (toLowerCase (lit "-")) with (lit "-").
    apply chars_intro; [exact HP|].
    cbn [matchTerms]. apply star_suffix_matches; assumption.
Qed.

(** [^P-[a-z0-9-]+-\d{4}$] for a literal [P] *)
Lemma plus_terms_match (text P candidate : jsstring) :
  forallb isKebabChar P = true ->
  test {| sourceText := text;
          source := TBegin :: chars P
                      ++ TAtom (AChar "-") QOne :: TAtom kebabClass QPlus
                           :: suffixTerms;
          ignoreCase := true |} candidate = true <->
  exists c mid digits,
    isKebabChar c = true /\ forallb isKebabChar mid = true /\
    List.length digits = 4%nat /\ forallb isDigit digits = true /\
    eqIgnoreCase candidate (P ++ lit "-" ++ (c :: mid) ++ lit "-" ++ digits).
Proof.
  intros HP. unfold eqIgnoreCase. split.
  - unfold test. cbn [source ignoreCase]. rewrite searchFrom_begin.
    intros E. apply chars_elim in E as (pre & suf & -> & Hpre & Hr).
    cbn [matchTerms repK] in Hr.
    destruct suf as [|h suf]; [discriminate Hr|].
    apply andb_prop in Hr as [Eh Hr]. apply hyphen_matches in Eh. subst h.
    destruct suf as [|c suf]; [discriminate Hr|].
    apply andb_prop in Hr as [Ec Hr].
    apply star_suffix_elim in Hr as (mid & digits & -> & Hm & Hn & Hd).
    exists (lowerChar c), (toLowerCase mid), digits.
    split; [rewrite <- kebabClass_lower; exact Ec|].
    split; [apply forallb_kebab_lower, Hm|]. split; [exact Hn|].
    split; [exact Hd|].
    unfold toLowerCase in *. cbn [lit list_ascii_of_string app].
    rewrite !map_app. cbn [map]. rewrite !map_app. cbn [map].
    rewrite Hpre, lowerChar_twice, map_map.
    rewrite (map_ext _ _ lowerChar_twice). reflexivity.
  - intros (c & mid & digits & Hc & Hm & Hn & Hd & E).
    assert (Hcm : forallb isKebabChar (c :: mid) = true)
      by (cbn [forallb]; rewrite Hc, Hm; reflexivity).
    rewrite test_begin, E, !toLowerCase_app.
    rewrite (toLowerCase_kebab P HP), (toLowerCase_kebab (c :: mid) Hcm),
      (toLowerCase_digits digits Hd).
    change (toLowerCase (lit "-")) with (lit "-").
    apply chars_intro; [exact HP|].
    cbn [lit list_ascii_of_string app matchTerms repK].
    change (atomMatches true (AChar "-") "-") with true.
    rewrite (kebabClass_matches c Hc). cbn [andb].
    apply star_suffix_matches; assumption.
Qed.

(** X6.  The four builders never fail: whatever the names, each pattern is
    well formed and each expression ignores case.  The canonical form leaves
    no character of the names that the pattern language would read as
    anything but itself. *)
Theorem builders_never_throw (last first : jsstring) :
  exists re1 re2 re3 re4,
    buildExactRegex last first = Normal re1 /\
    buildLastPlusFirstInitialRegex last first = Normal re2 /\
    buildLastOnlyRegex last = Normal re3 /\
    buildFirstLetterRegex last = Normal re4 /\
    ignoreCase re1 = true /\ ignoreCase re2 = true /\
    ignoreCase re3 = true /\ ignoreCase re4 = true.
Proof.
  rewrite buildExactRegex_eq, buildLastPlusFirstInitialRegex_eq,
    buildLastOnlyRegex_eq, buildFirstLetterRegex_eq.
  do 4 eexists. repeat split.
Qed.

Lemma initial_kebab (s : jsstring) :
  forallb isKebabChar (charAtOr (canonicalKebab s) 0 []) = true.
Proof. apply forallb_charAtOr, kebab_chars. Qed.

(** X7.  A candidate matches the last + first-initial expression exactly
    when, up to the case of ASCII letters, it is the canonical last name, a
    hyphen, the first character of the canonical first name (nothing, when
    that name is empty), any run of [[a-z0-9-]], a hyphen and four decimal
    digits. *)
Theorem lastPlusFirstInitial_pattern_matches (last first : jsstring) :
  exists re,
    buildLastPlusFirstInitialRegex last first = Normal re /\
    forall candidate,
      test re candidate = true <->
      exists mid digits,
        forallb isKebabChar mid = true /\
        List.length digits = 4%nat /\ forallb isDigit digits = true /\
        eqIgnoreCase candidate
          (canonicalKebab last ++ lit "-"
             ++ charAtOr (canonicalKebab first) 0 [] ++ mid
             ++ lit "-" ++ digits).
Proof.
  eexists. split; [apply buildLastPlusFirstInitialRegex_eq|].
  intros candidate.
  etransitivity;
    [ apply star_terms_match;
      rewrite !forallb_app, kebab_chars, initial_kebab; reflexivity | ].
  split; intros (mid & digits & Hm & Hn & Hd & E); exists mid, digits;
    repeat (split; [assumption|]); unfold eqIgnoreCase in *; rewrite E;
    rewrite <- ?app_assoc; reflexivity.
Qed.

(** X8.  A candidate matches the last-only expression exactly when, up to
    the case of ASCII letters, it is the canonical last name, a hyphen, a
    non-empty run of [[a-z0-9-]], a hyphen and four decimal digits. *)
Theorem lastOnly_pattern_matches (last : jsstring) :
  exists re,
    buildLastOnlyRegex last = Normal re /\
    forall candidate,
      test re candidate = true <->
      exists c mid digits,
        isKebabChar c = true /\ forallb isKebabChar mid = true /\
        List.length digits = 4%nat /\ forallb isDigit digits = true /\
        eqIgnoreCase candidate
          (canonicalKebab last ++ lit "-" ++ (c :: mid) ++ lit "-" ++ digits).
Proof.
  eexists. split; [apply buildLastOnlyRegex_eq|].
  intros candidate. apply plus_terms_match, kebab_chars.
Qed.

(** X9.  A candidate matches the first-letter expression exactly when, up
    to the case of ASCII letters, it is the first character of the
    canonical last name (nothing, when that name is empty), any run of
    [[a-z0-9-]], a hyphen and four decimal digits. *)
Theorem firstLetter_pattern_matches (last : jsstring) :
  exists re,
    buildFirstLetterRegex last = Normal re /\
    forall candidate,
      test re candidate = true <->
      exists mid digits,
        forallb isKebabChar mid = true /\
        List.length digits = 4%nat /\ forallb isDigit digits = true /\
        eqIgnoreCase candidate
          (charAtOr (canonicalKebab last) 0 [] ++ mid ++ lit "-" ++ digits).
Proof.
  eexists. split; [apply buildFirstLetterRegex_eq|].
  intros candidate. apply star_terms_match, initial_kebab.
Qed.

(** X10.  The fallback tiers are nested: what the last + first-initial
    expression matches, the last-only expression matches too, provided the
    canonical first name is not empty; and what the last-only expression
    matches, the first-letter expression matches too. *)
Theorem fallback_tiers_nested (last first : jsstring) :
  exists re2 re3 re4,
    buildLastPlusFirstInitialRegex last first = Normal re2 /\
    buildLastOnlyRegex last = Normal re3 /\
    buildFirstLetterRegex last = Normal re4 /\
    (canonicalKebab first <> [] ->
     forall s, test re2 s = true -> test re3 s = true) /\
    (forall s, test re3 s = true -> test re4 s = true).
Proof.
  do 3 eexists.
  split; [apply buildLastPlusFirstInitialRegex_eq|].
  split; [apply buildLastOnlyRegex_eq|].
  split; [apply buildFirstLetterRegex_eq|].
  pose proof (kebab_chars last) as HL.
  pose proof (kebab_chars first) as HF.
  split.
  - intros Hne s E.
    destruct (canonicalKebab first) as [|f F'] eqn:EF; [congruence|].
    cbn [forallb] in HF. apply andb_prop in HF as [Hf _].
    apply star_terms_match in E as (mid & digits & Hm & Hn & Hd & E);
      [|rewrite !forallb_app, HL; cbn; rewrite Hf; reflexivity].
    apply plus_terms_match; [exact HL|].
    exists f, mid, digits. repeat (split; [assumption|]).
    unfold eqIgnoreCase in *. rewrite E, <- !app_assoc. reflexivity.
  - intros s E.
    apply plus_terms_match in E as (c & mid & digits & Hc & Hm & Hn & Hd & E);
      [|exact HL].
    apply star_terms_match; [apply initial_kebab|].
    exists (tl (canonicalKebab last) ++ lit "-" ++ c :: mid), digits.
    split.
    { rewrite !forallb_app, (forallb_tl _ _ HL). cbn. rewrite Hc, Hm.
      reflexivity. }
    repeat (split; [assumption|]).
    unfold eqIgnoreCase in *. rewrite E.
    rewrite (charAtOr_tl (canonicalKebab last)) at 1.
    rewrite <- !app_assoc. reflexivity.
Qed.

Lemma fallback_tiers_nested_witness :
  exists re2 re3 re4,
    buildLastPlusFirstInitialRegex (lit "Smith") (lit "Jane") = Normal re2 /\
    buildLastOnlyRegex (lit "Smith") = Normal re3 /\
    buildFirstLetterRegex (lit "Smith") = Normal re4 /\
    test re3 (lit "SMITH-joan-0007") = true /\
    test re4 (lit "SMITH-joan-0007") = true.
Proof.
  destruct (fallback_tiers_nested (lit "Smith") (lit "Jane"))
    as (re2 & re3 & re4 & E2 & E3 & E4 & H23 & H34).
  exists re2, re3, re4. repeat (split; [assumption|]).
  assert (T3 : test re3 (lit "SMITH-joan-0007") = true).
  { apply H23; [vm_compute; discriminate|].
    vm_compute in E2. injection E2 as <-. vm_compute. reflexivity. }
  split; [exact T3|]. apply H34, T3.
Defined.

(** * Waiting and clicking *)

Section WaitFacts.

Context {H : Host}.

(** [k] timers of [ms] milliseconds, one after the other *)
Lemma timers_advance (ms : Z) (k : nat) (w : World H) :
  (now w + ms * Z.of_nat k <= now (Nat.iter k (sleep ms) w))%Z.
Proof.
  induction k as [|k IH]; [simpl; lia|].
  cbn [Nat.iter nat_rect]. change (nat_rect _ w _ k) with (Nat.iter k (sleep ms) w).
  pose proof (sleep_advances H ms (Nat.iter k (sleep ms) w)). lia.
Qed.

Lemma jsstring_eqb_eq (s t : jsstring) : jsstring_eqb s t = true <-> s = t.
Proof.
  unfold jsstring_eqb. destruct (list_eq_dec ascii_dec s t); split;
    congruence.
Qed.

(** ** countdown *)

Lemma waitUserReady_spec (n : nat) (w : World H) :
  exists k,
    (k <= n)%nat /\
    waitUserReady n w = Nat.iter k (sleep 5000) w /\
    (forall j, (j < k)%nat -> userReady (Nat.iter j (sleep 5000) w) = false) /\
    (k = n \/ userReady (Nat.iter k (sleep 5000) w) = true).
Proof.
  revert w. induction n as [|n IH]; intros w.
  - exists 0%nat. simpl. repeat split; auto. intros j Hj. lia.
  - cbn [waitUserReady]. destruct (userReady w) eqn:Er.
    + exists 0%nat. simpl. repeat split; auto; [lia|]. intros j Hj. lia.
    + destruct (IH (sleep 5000 w)) as (k & Hk & E & Hbefore & Hend).
      exists (S k). rewrite Nat.iter_succ_r. repeat split.
      * lia.
      * exact E.
      * intros [|j] Hj; [exact Er|].
        rewrite Nat.iter_succ_r. apply Hbefore. lia.
      * destruct Hend as [-> | Hend]; auto.
Qed.

(** ** The polling loops *)

Lemma checkRegex_spec (regex : RegExp) (root : Elem H) (timeout start : Z)
    (polls : nat) :
  forall (w w' : World H) (r : outcome (list (Elem H))),
    checkRegex polls regex root timeout start w = (r, w') ->
    exists k,
      (k <= polls)%nat /\
      w' = Nat.iter k (sleep 500) w /\
      (forall j, (j < k)%nat ->
                 findNodesByRegex regex root (Nat.iter j (sleep 500) w) = []) /\
      match r with
      | Normal ms => ms <> [] /\ findNodesByRegex regex root w' = ms
      | Thrown e =>
          e = Error (lit "Timeout waiting for regex: " ++ regexToString regex) /\
          findNodesByRegex regex root w' = [] /\
          (timeout < now w' - start)%Z
      | Continued => False
      | Diverged => True
      end.
Proof.
  induction polls as [|polls IH]; intros w w' r E; cbn [checkRegex] in E.
  - destruct (findNodesByRegex regex root w) as [|m ms] eqn:Ef.
    + destruct (now w - start >? timeout)%Z eqn:Et;
        injection E as <- <-; exists 0%nat; simpl;
        (split; [lia|]); (split; [reflexivity|]); (split; [intros j Hj; lia|]);
        auto.
      rewrite Z.gtb_ltb in Et. apply Z.ltb_lt in Et. auto.
    + injection E as <- <-. exists 0%nat. simpl.
      split; [lia|]. split; [reflexivity|]. split; [intros j Hj; lia|].
      split; [discriminate|exact Ef].
  - destruct (findNodesByRegex regex root w) as [|m ms] eqn:Ef.
    + destruct (now w - start >? timeout)%Z eqn:Et.
      * injection E as <- <-. exists 0%nat. simpl.
        split; [lia|]. split; [reflexivity|]. split; [intros j Hj; lia|].
        rewrite Z.gtb_ltb in Et. apply Z.ltb_lt in Et. auto.
      * apply IH in E as (k & Hk & -> & Hbefore & Hr).
        exists (S k). rewrite Nat.iter_succ_r.
        split; [lia|]. split; [reflexivity|]. split; [|exact Hr].
        intros [|j] Hj; [exact Ef|].
        rewrite Nat.iter_succ_r. apply Hbefore. lia.
    + injection E as <- <-. exists 0%nat. simpl.
      split; [lia|]. split; [reflexivity|]. split; [intros j Hj; lia|].
      split; [discriminate|exact Ef].
Qed.

Lemma checkMatchExact_spec (nm : jsstring) (root : Elem H) (timeout start : Z)
    (polls : nat) :
  forall (w w' : World H) (r : outcome (Elem H)),
    checkMatchExact polls nm root timeout start w = (r, w') ->
    exists k,
      (k <= polls)%nat /\
      w' = Nat.iter k (sleep 500) w /\
      (forall j, (j < k)%nat ->
                 findNodeExact nm root (Nat.iter j (sleep 500) w) = None) /\
      match r with
      | Normal node => findNodeExact nm root w' = Some node
      | Thrown e =>
          e = Error (lit "Timeout waiting for " ++ nm) /\
          findNodeExact nm root w' = None /\
          (timeout < now w' - start)%Z
      | Continued => False
      | Diverged => True
      end.
Proof.
  induction polls as [|polls IH]; intros w w' r E; cbn [checkMatchExact] in E.
  - destruct (findNodeExact nm root w) as [node|] eqn:Ef.
    + injection E as <- <-. exists 0%nat. simpl.
      split; [lia|]. split; [reflexivity|]. split; [intros j Hj; lia|].
      exact Ef.
    + destruct (now w - start >? timeout)%Z eqn:Et;
        injection E as <- <-; exists 0%nat; simpl;
        (split; [lia|]); (split; [reflexivity|]); (split; [intros j Hj; lia|]);
        auto.
      rewrite Z.gtb_ltb in Et. apply Z.ltb_lt in Et. auto.
  - destruct (findNodeExact nm root w) as [node|] eqn:Ef.
    + injection E as <- <-. exists 0%nat. simpl.
      split; [lia|]. split; [reflexivity|]. split; [intros j Hj; lia|].
      exact Ef.
    + destruct (now w - start >? timeout)%Z eqn:Et.
      * injection E as <- <-. exists 0%nat. simpl.
        split; [lia|]. split; [reflexivity|]. split; [intros j Hj; lia|].
        rewrite Z.gtb_ltb in Et. apply Z.ltb_lt in Et. auto.
      * apply IH in E as (k & Hk & -> & Hbefore & Hr).
        exists (S k). rewrite Nat.iter_succ_r.
        split; [lia|]. split; [reflexivity|]. split; [|exact Hr].
        intros [|j] Hj; [exact Ef|].
        rewrite Nat.iter_succ_r. apply Hbefore. lia.
Qed.

Lemma waitForRegex_spec (regex : RegExp) (root : Elem H) (timeout : Z)
    (w w' : World H) (r : outcome (list (Elem H))) :
  waitForRegex regex root timeout w = (r, w') ->
  exists k,
    w' = Nat.iter k (sleep 500) w /\
    (forall j, (j < k)%nat ->
               findNodesByRegex regex root (Nat.iter j (sleep 500) w) = []) /\
    ((exists m ms,
         r = Normal (m :: ms) /\ findNodesByRegex regex root w' = m :: ms) \/
     (r = Thrown (Error (lit "Timeout waiting for regex: "
                           ++ regexToString regex)) /\
      findNodesByRegex regex root w' = [] /\
      (timeout < now w' - now w)%Z)).
Proof.
  intros E. pose proof (waitForRegex_settles regex root timeout w) as Hs.
  rewrite E in Hs. unfold waitForRegex in E.
  apply checkRegex_spec in E as (k & _ & -> & Hbefore & Hr).
  exists k. split; [reflexivity|]. split; [exact Hbefore|].
  destruct r as [ms|e| |]; simpl in Hs; try contradiction.
  - left. destruct Hr as [Hne Ef]. destruct ms as [|m ms]; [congruence|].
    exists m, ms. auto.
  - right. destruct Hr as (-> & Ef & Ht). auto.
Qed.

Lemma waitForMatchExact_spec (nm : jsstring) (root : Elem H) (timeout : Z)
    (w w' : World H) (r : outcome (Elem H)) :
  waitForMatchExact nm root timeout w = (r, w') ->
  exists k,
    w' = Nat.iter k (sleep 500) w /\
    (forall j, (j < k)%nat ->
               findNodeExact nm root (Nat.iter j (sleep 500) w) = None) /\
    ((exists node, r = Normal node /\ findNodeExact nm root w' = Some node) \/
     (r = Thrown (Error (lit "Timeout waiting for " ++ nm)) /\
      findNodeExact nm root w' = None /\
      (timeout < now w' - now w)%Z)).
Proof.
  intros E. pose proof (waitForMatchExact_settles nm root timeout w) as Hs.
  rewrite E in Hs. unfold waitForMatchExact in E.
  apply checkMatchExact_spec in E as (k & _ & -> & Hbefore & Hr).
  exists k. split; [reflexivity|]. split; [exact Hbefore|].
  destruct r as [node|e| |]; simpl in Hs; try contradiction.
  - left. exists node. auto.
  - right. destruct Hr as (-> & Ef & Ht). auto.
Qed.

(** ** clickFirstRegex *)

Lemma findNodesByRegex_span (regex : RegExp) (root node : Elem H) (w : World H) :
  In node (findNodesByRegex regex root w) ->
  exists span,
    querySelector (lit "span") node w = Some span /\
    test regex (trim (textContent span w)) = true.
Proof.
  unfold findNodesByRegex. intros Hin. apply filter_In in Hin as [_ Hm].
  destruct (querySelector (lit "span") node w) as [span|]; [|discriminate].
  exists span. auto.
Qed.

Lemma clickFirstRegex_spec (regex : RegExp) (root : Elem H) (timeout : Z)
    (w w' : World H) (r : outcome bool) :
  clickFirstRegex regex root timeout w = (r, w') ->
  (r = Normal true /\
   exists k node others span,
     findNodesByRegex regex root (Nat.iter k (sleep 500) w) = node :: others /\
     querySelector (lit "span") node (Nat.iter k (sleep 500) w) = Some span /\
     test regex (trim (textContent span (Nat.iter k (sleep 500) w))) = true /\
     w' = waitUserReady 12
            (setUserReady false (click span (Nat.iter k (sleep 500) w))))
  \/
  (r = Thrown (Error (lit "Timeout waiting for regex: "
                        ++ regexToString regex)) /\
   (timeout < now w' - now w)%Z).
Proof.
  unfold clickFirstRegex, bind. intros E.
  destruct (waitForRegex regex root timeout w) as [r1 w1] eqn:Ew.
  apply waitForRegex_spec in Ew as (k & -> & _ & [(m & ms & -> & Ef) | (-> & _ & Ht)]).
  - left.
    destruct (findNodesByRegex_span regex root m (Nat.iter k (sleep 500) w))
      as (span & Es & Et); [rewrite Ef; left; reflexivity|].
    unfold gets in E. rewrite Es in E.
    unfold modify, countdown, ret in E. cbn [Nat.eqb] in E.
    injection E as <- <-. split; [reflexivity|].
    exists k, m, ms, span. auto.
  - right. injection E as <- <-. auto.
Qed.

(** ** findNodeExact *)

Lemma find_first {A : Type} (f : A -> bool) (l : list A) (a : A) :
  find f l = Some a ->
  exists before after,
    l = before ++ a :: after /\ f a = true /\
    forallb (fun x => negb (f x)) before = true.
Proof.
  induction l as [|x t IH]; [discriminate|].
  cbn [find]. destruct (f x) eqn:Ex.
  - intros [= <-]. exists [], t. auto.
  - intros E. destruct (IH E) as (before & after & -> & Ha & Hb).
    exists (x :: before), after. cbn [forallb]. rewrite Ex, Hb. auto.
Qed.

Lemma find_some_exists {A : Type} (f : A -> bool) (l : list A) (a : A) :
  In a l -> f a = true -> exists b, find f l = Some b.
Proof.
  intros Hin Ha. destruct (find f l) as [b|] eqn:E; [eauto|].
  rewrite (find_none f l E a Hin) in Ha. discriminate.
Qed.

(** The test findNodeExact applies to a tree node. *)
Lemma labelled_iff (nm : jsstring) (node : Elem H) (w : World H) :
  (match querySelector (lit "span") node w with
   | None => false
   | Some span => jsstring_eqb (sanitizeName (textContent span w)) (sanitizeName nm)
   end) = true <->
  exists span,
    querySelector (lit "span") node w = Some span /\
    sanitizeName (textContent span w) = sanitizeName nm.
Proof.
  destruct (querySelector (lit "span") node w) as [span|]; split.
  - intros E. apply jsstring_eqb_eq in E. eauto.
  - intros (s & [= <-] & E). apply jsstring_eqb_eq, E.
  - discriminate.
  - intros (s & E & _). discriminate E.
Qed.

End WaitFacts.

(** X11.  waitForMatchExact does nothing but wait, 500 ms at a time.  It
    resolves at the first poll at which findNodeExact finds a node, with
    that node; it rejects only at a poll that finds none and comes more
    than [timeout] ms after the call. *)
Theorem waitForMatchExact_outcome (H : Host) (nm : jsstring) (root : Elem H)
    (timeout : Z) (w w' : World H) (r : outcome (Elem H)) :
  waitForMatchExact nm root timeout w = (r, w') ->
  exists k,
    w' = Nat.iter k (sleep 500) w /\
    (forall j, (j < k)%nat ->
               findNodeExact nm root (Nat.iter j (sleep 500) w) = None) /\
    ((exists node, r = Normal node /\ findNodeExact nm root w' = Some node) \/
     (r = Thrown (Error (lit "Timeout waiting for " ++ nm)) /\
      findNodeExact nm root w' = None /\
      (timeout < now w' - now w)%Z)).
Proof. exact (waitForMatchExact_spec nm root timeout w w' r). Qed.

Lemma waitForMatchExact_outcome_witness :
  exists r w' k,
    @waitForMatchExact ChainHost.emptyFolder (lit "Aa-Ai") 0%nat 5000%Z 0%Z
    = (r, w') /\
    w' = Nat.iter k (@sleep ChainHost.emptyFolder 500%Z) 0%Z /\
    r = Thrown (Error (lit "Timeout waiting for Aa-Ai")) /\
    (5000 < w' - 0)%Z.
Proof.
  run (@waitForMatchExact ChainHost.emptyFolder (lit "Aa-Ai") 0%nat 5000%Z 0%Z)
    ltac:(fun v E =>
      match v with
      | (?r, ?w') =>
          destruct (waitForMatchExact_outcome ChainHost.emptyFolder
                      (lit "Aa-Ai") 0%nat 5000%Z 0%Z w' r E)
            as (k & Ew & _ & [(node & Er & _) | (Er & _ & Ht)]);
          [ discriminate Er
          | exists r, w', k; split; [exact E|]; split; [exact Ew|];
            split; [reflexivity | exact Ht] ]
      end).
Defined.

Example lastOnlySmith_built :
  buildLastOnlyRegex (lit "Smith") = Normal lastOnlySmith.
Proof. reflexivity. Qed.

(** X12.  waitForRegex does nothing but wait, 500 ms at a time.  It
    resolves at the first poll at which some node's label matches, with the
    matching nodes of that moment, in document order; it rejects only at a
    poll that finds none and comes more than [timeout] ms after the call,
    with an error whose message ends in the expression, written as a
    string. *)
Theorem waitForRegex_outcome (H : Host) (regex : RegExp) (root : Elem H)
    (timeout : Z) (w w' : World H) (r : outcome (list (Elem H))) :
  waitForRegex regex root timeout w = (r, w') ->
  exists k,
    w' = Nat.iter k (sleep 500) w /\
    (forall j, (j < k)%nat ->
               findNodesByRegex regex root (Nat.iter j (sleep 500) w) = []) /\
    ((exists m ms,
         r = Normal (m :: ms) /\ findNodesByRegex regex root w' = m :: ms) \/
     (r = Thrown (Error (lit "Timeout waiting for regex: "
                           ++ regexToString regex)) /\
      findNodesByRegex regex root w' = [] /\
      (timeout < now w' - now w)%Z)).
Proof. exact (waitForRegex_spec regex root timeout w w' r). Qed.

Lemma waitForRegex_outcome_witness :
  exists r w' k,
    @waitForRegex ChainHost.emptyFolder lastOnlySmith 6%nat 2000%Z 0%Z = (r, w') /\
    w' = Nat.iter k (@sleep ChainHost.emptyFolder 500%Z) 0%Z /\
    r = Thrown (Error (lit "Timeout waiting for regex: /^smith-[a-z0-9-]+-\d{4}$/i")) /\
    (2000 < w' - 0)%Z.
Proof.
  run (@waitForRegex ChainHost.emptyFolder lastOnlySmith 6%nat 2000%Z 0%Z)
    ltac:(fun v E =>
      match v with
      | (?r, ?w') =>
          destruct (waitForRegex_outcome ChainHost.emptyFolder
                      lastOnlySmith 6%nat 2000%Z 0%Z w' r E)
            as (k & Ew & _ & [(m & ms & Er & _) | (Er & _ & Ht)]);
          [ discriminate Er
          | exists r, w', k; split; [exact E|]; split; [exact Ew|];
            split; [reflexivity | exact Ht] ]
      end).
Defined.

(** X13.  clickFirstRegex never returns false.  Either it returns true,
    having clicked the span of the first node, in document order, whose
    trimmed label matched at the poll that found one, and having waited for
    the user's signal; or it throws the timeout of waitForRegex, whose
    message ends in the expression, more than [timeout] ms after the call.
    The branch for a match without a span is never taken. *)
Theorem clickFirstRegex_outcome (H : Host) (regex : RegExp) (root : Elem H)
    (timeout : Z) (w w' : World H) (r : outcome bool) :
  clickFirstRegex regex root timeout w = (r, w') ->
  (r = Normal true /\
   exists k node others span,
     findNodesByRegex regex root (Nat.iter k (sleep 500) w) = node :: others /\
     querySelector (lit "span") node (Nat.iter k (sleep 500) w) = Some span /\
     test regex (trim (textContent span (Nat.iter k (sleep 500) w))) = true /\
     w' = waitUserReady 12
            (setUserReady false (click span (Nat.iter k (sleep 500) w))))
  \/
  (r = Thrown (Error (lit "Timeout waiting for regex: "
                        ++ regexToString regex)) /\
   (timeout < now w' - now w)%Z).
Proof. exact (clickFirstRegex_spec regex root timeout w w' r). Qed.

Lemma clickFirstRegex_outcome_witness :
  exists w',
    @clickFirstRegex ChainHost.smithFolder lastOnlySmith 6%nat 2000%Z 0%Z
    = (Normal true, w') /\
    exists k node others span,
      @findNodesByRegex ChainHost.smithFolder lastOnlySmith 6%nat
        (Nat.iter k (@sleep ChainHost.smithFolder 500%Z) 0%Z) = node :: others /\
      @querySelector ChainHost.smithFolder (lit "span") node
        (Nat.iter k (@sleep ChainHost.smithFolder 500%Z) 0%Z) = Some span.
Proof.
  run (@clickFirstRegex ChainHost.smithFolder lastOnlySmith 6%nat 2000%Z 0%Z)
    ltac:(fun v E =>
      match v with
      | (?r, ?w') =>
          destruct (clickFirstRegex_outcome ChainHost.smithFolder
                      lastOnlySmith 6%nat 2000%Z 0%Z w' r E)
            as [(Er & k & node & others & span & Ef & Es & _ & _) | (Er & _)];
          [ exists w'; split; [exact E|];
            exists k, node, others, span; split; [exact Ef | exact Es]
          | discriminate Er ]
      end).
Defined.

(** X14.  countdown(0) first sets [window.userReady] to false, then waits
    5 s at a time: it returns at the first check that finds
    [window.userReady] set, and after twelve waits at the latest, set or
    not.  [k] waits take 5000 k ms at least. *)
Theorem countdown_zero_bounded (H : Host) (w : World H) :
  exists k,
    (k <= 12)%nat /\
    countdown 0 w
    = (Normal tt, Nat.iter k (sleep 5000) (setUserReady false w)) /\
    (forall j, (j < k)%nat ->
       userReady (Nat.iter j (sleep 5000) (setUserReady false w)) = false) /\
    (k = 12%nat \/
     userReady (Nat.iter k (sleep 5000) (setUserReady false w)) = true) /\
    (now (setUserReady false w) + 5000 * Z.of_nat k
     <= now (Nat.iter k (sleep 5000) (setUserReady false w)))%Z.
Proof.
  destruct (waitUserReady_spec 12 (setUserReady false w))
    as (k & Hk & E & Hbefore & Hend).
  exists k. split; [exact Hk|].
  split; [unfold countdown, modify; cbn [Nat.eqb]; rewrite E; reflexivity|].
  split; [exact Hbefore|]. split; [exact Hend|]. apply timers_advance.
Qed.

Lemma expand_spec (H : Host) (nm : jsstring) (root : Elem H)
    (w w' : World H) (r : outcome (Elem H)) :
  expand nm root w = (r, w') ->
  (exists k node,
      let w1 := Nat.iter k (sleep 500) w in
      r = Normal node /\
      findNodeExact nm root w1 = Some node /\
      match querySelector (lit "img") node w1 with
      | None => w' = w1
      | Some arrow =>
          match lastElementChild node w1 with
          | Some child =>
              if jsstring_eqb (tagName child w1) (lit "DIV") then w' = w1
              else w' = sleep 250 (click arrow w1)
          | None => w' = sleep 250 (click arrow w1)
          end
      end)
  \/
  (r = Thrown (Error (lit "Timeout waiting for " ++ nm)) /\
   (5000 < now w' - now w)%Z).
Proof.
  unfold expand, bind. intros E.
  destruct (waitForMatchExact nm root 5000 w) as [r1 w1] eqn:Ew.
  apply waitForMatchExact_spec in Ew
    as (k & -> & _ & [(node & -> & Ef) | (-> & _ & Ht)]).
  - left. exists k, node. cbv zeta. unfold gets, ret, modify in E.
    destruct (querySelector (lit "img") node (Nat.iter k (sleep 500) w))
      as [arrow|].
    + destruct (lastElementChild node (Nat.iter k (sleep 500) w)) as [child|].
      * destruct (jsstring_eqb _ _); injection E as <- <-; auto.
      * injection E as <- <-. auto.
    + injection E as <- <-. auto.
  - right. injection E as <- <-. auto.
Qed.

(** X15.  expand returns the node waitForMatchExact found, or fails with
    its timeout, more than 5 s after the call.  It clicks the node's arrow,
    and waits 250 ms, only when the node has an arrow and its last child is
    not a DIV; a node without arrow, or already expanded, is left alone. *)
Theorem expand_outcome (H : Host) (nm : jsstring) (root : Elem H)
    (w w' : World H) (r : outcome (Elem H)) :
  expand nm root w = (r, w') ->
  (exists k node,
      let w1 := Nat.iter k (sleep 500) w in
      r = Normal node /\
      findNodeExact nm root w1 = Some node /\
      match querySelector (lit "img") node w1 with
      | None => w' = w1
      | Some arrow =>
          match lastElementChild node w1 with
          | Some child =>
              if jsstring_eqb (tagName child w1) (lit "DIV") then w' = w1
              else w' = sleep 250 (click arrow w1)
          | None => w' = sleep 250 (click arrow w1)
          end
      end)
  \/
  (r = Thrown (Error (lit "Timeout waiting for " ++ nm)) /\
   (5000 < now w' - now w)%Z).
Proof. exact (expand_spec H nm root w w' r). Qed.

Lemma expand_outcome_witness :
  exists node w',
    @expand ChainHost.smithFolder (lit "people_cards") 0%nat 0%Z
    = (Normal node, w') /\
    @findNodeExact ChainHost.smithFolder (lit "people_cards") 0%nat 0%Z
    = Some node /\
    w' = 250%Z.
Proof.
  run (@expand ChainHost.smithFolder (lit "people_cards") 0%nat 0%Z)
    ltac:(fun v E =>
      match v with
      | (?r, ?w') =>
          destruct (expand_outcome ChainHost.smithFolder
                      (lit "people_cards") 0%nat 0%Z w' r E)
            as [(k & node & Er & Ef & _) | (Er & _)];
          [ injection Er as <-;
            eexists; exists w'; split; [exact E|]; split; reflexivity
          | discriminate Er ]
      end).
Defined.

(** X16.  findNodeExact returns the first tree node under the search root,
    in document order, whose span's text is the name once both are
    sanitized; it returns one whenever there is one.  So the label may
    differ from the name in case and in the choice of hyphen, underscore or
    space. *)
Theorem findNodeExact_first (H : Host) (nm : jsstring) (root : Elem H)
    (w : World H) :
  (forall node,
      findNodeExact nm root w = Some node ->
      exists before after span,
        querySelectorAll (lit ".scContentTreeNode") root w
        = before ++ node :: after /\
        querySelector (lit "span") node w = Some span /\
        sanitizeName (textContent span w) = sanitizeName nm /\
        forall earlier s,
          In earlier before ->
          querySelector (lit "span") earlier w = Some s ->
          sanitizeName (textContent s w) <> sanitizeName nm)
  /\
  (forall node span,
      In node (querySelectorAll (lit ".scContentTreeNode") root w) ->
      querySelector (lit "span") node w = Some span ->
      sanitizeName (textContent span w) = sanitizeName nm ->
      exists node', findNodeExact nm root w = Some node').
Proof.
  split.
  - intros node E. unfold findNodeExact in E. cbv zeta in E.
    apply find_first in E as (before & after & El & Hn & Hb).
    apply labelled_iff in Hn as (span & Es & Et).
    exists before, after, span. repeat split; try assumption.
    intros earlier s Hin Hs Heq.
    rewrite forallb_forall in Hb. specialize (Hb earlier Hin).
    apply negb_true_iff in Hb.
    assert (Ht : (match querySelector (lit "span") earlier w with
                  | None => false
                  | Some span =>
                      jsstring_eqb (sanitizeName (textContent span w))
                        (sanitizeName nm)
                  end) = true)
      by (apply labelled_iff; eauto).
    rewrite Hb in Ht. discriminate Ht.
  - intros node span Hin Hs Heq. unfold findNodeExact. cbv zeta.
    apply (find_some_exists _ _ node Hin).
    apply labelled_iff. eauto.
Qed.

Lemma findNodeExact_first_witness :
  exists node',
    @findNodeExact ChainHost.smithFolder (lit "SJ_SR") 5%nat 0%Z = Some node'.
Proof.
  apply (proj2 (findNodeExact_first ChainHost.smithFolder (lit "SJ_SR")
                  5%nat 0%Z) 6%nat 1006%nat); vm_compute; auto.
Defined.

(** * More on the loop *)

Section LoopFacts.

Context {H : Host}.

Lemma expandPath_spec (names : list jsstring) :
  forall (root : Elem H) (w w' : World H) (r : outcome (Elem H)),
    expandPath names root w = (r, w') ->
    (exists node, r = Normal node) \/
    (exists folder,
        In folder names /\
        r = Thrown (Error (lit "Timeout waiting for " ++ folder))).
Proof.
  induction names as [|nm rest IH]; intros root w w' r E.
  - injection E as <- <-. left. eauto.
  - cbn [expandPath] in E. unfold bind in E.
    destruct (expand nm root w) as [r1 w1] eqn:Ee.
    apply expand_spec in Ee as [(k & node & -> & _) | (-> & _)].
    + apply IH in E as [E | (folder & Hin & E)]; [left; exact E|].
      right. exists folder. split; [right; exact Hin|exact E].
    + injection E as <- <-. right. exists nm. split; [left|]; reflexivity.
Qed.

Lemma clickFirstRegex_miss (regex : RegExp) (root : Elem H) (timeout : Z)
    (w w' : World H) (r : outcome bool) :
  clickFirstRegex regex root timeout w = (r, w') ->
  r <> Normal true ->
  (timeout < now w' - now w)%Z.
Proof.
  intros E Hr. apply clickFirstRegex_spec in E as [[Er _] | [_ Ht]];
    [congruence|exact Ht].
Qed.

End LoopFacts.

(** X17.  A name whose last name does not start with a letter once in
    canonical form (it starts with a digit, or nothing of it is left) is
    skipped like a one-word name: computeLetterAndRange throws, nothing has
    touched the tree, the entry stays as it was created and the loop goes
    on. *)
Theorem non_letter_last_name_skipped (H : Host) (nm : jsstring)
    (pn : personName) (rest : list person) (w : World H) :
  parsePersonName nm = Normal pn ->
  headIs isAsciiLetter (removeAll isHyphen (canonicalKebab (last pn))) = false ->
  tryBlock (newPerson nm, w)
  = (Thrown (Error (lit "Last name must start with A-Z: " ++ last pn)),
     (newPerson nm, w)) /\
  loopBody (newPerson nm, w) = (Normal tt, (newPerson nm, w)) /\
  exists out w',
    forEachPerson rest w = (Normal out, w') /\
    forEachPerson (newPerson nm :: rest) w
    = (Normal (newPerson nm :: out), w').
Proof.
  intros Ep Hl.
  pose proof (computeLetterAndRange_no_letter (last pn) Hl) as Ec.
  assert (Eprep : prepare (name (newPerson nm)) w
                  = (Thrown (Error (lit "Last name must start with A-Z: "
                                      ++ last pn)), w)).
  { unfold prepare, bind, liftOutcome. cbn [name newPerson].
    rewrite Ep, Ec. reflexivity. }
  destruct (loopBody_not_prepared _ _ _ _ Eprep) as [Et El].
  split; [exact Et|]. split; [exact El|].
  destruct (forEachPerson_completes rest w) as (out & w' & Er & _).
  exists out, w'. split; [exact Er|].
  rewrite (forEachPerson_cons _ rest w _ _ _ El (or_introl eq_refl)), Er.
  reflexivity.
Qed.

Lemma non_letter_last_name_skipped_witness :
  @loopBody ChainHost.smithFolder (newPerson (lit "Jane 3M"), 0%Z)
  = (Normal tt, (newPerson (lit "Jane 3M"), 0%Z)) /\
  exists out w',
    @forEachPerson ChainHost.smithFolder [newPerson (lit "Jane Smith")] 0%Z
    = (Normal out, w') /\
    @forEachPerson ChainHost.smithFolder
      [newPerson (lit "Jane 3M"); newPerson (lit "Jane Smith")] 0%Z
    = (Normal (newPerson (lit "Jane 3M") :: out), w').
Proof.
  apply (non_letter_last_name_skipped ChainHost.smithFolder (lit "Jane 3M")
           {| first := lit "jane"; last := lit "3m" |}
           [newPerson (lit "Jane Smith")] 0%Z);
    reflexivity.
Defined.

(** X18.  An exact hit does not end the query.  The entry is marked found,
    getHeadshotImageString throws, the exact tier's catch swallows the error
    and the last + first-initial tier is tried next: when it clicks a node,
    the query ends there, found, with [null] as its [headshotImgString]. *)
Theorem exact_hit_falls_through (H : Host) (nm : jsstring) (plan : tierPlan)
    (w w0 w1 w2 : World H) :
  prepare nm w = (Normal plan, w0) ->
  clickFirstRegex (exactRe plan) (rangeNode plan) 3000 w0 = (Normal true, w1) ->
  clickFirstRegex (lastPlusInitialRe plan) (rangeNode plan) 2000 w1
  = (Normal true, w2) ->
  loopBody (newPerson nm, w)
  = (Continued,
     ({| name := nm; found := true; headshotImgString := VNull |}, w2)).
Proof.
  intros Ep E1 E2.
  rewrite (loopBody_prepared (newPerson nm) w w0 plan Ep).
  unfold tryTiers, bind.
  rewrite (exactTier_cases _ _ _ _ _ E1).
  rewrite (fallbackTier_cases _ _ _ _ _ _ E2). reflexivity.
Qed.

Lemma exact_hit_falls_through_witness :
  @loopBody ChainHost.smithFolder (newPerson (lit "Jane Smith"), 0%Z)
  = (Continued,
     ({| name := lit "Jane Smith"; found := true; headshotImgString := VNull |},
      121500%Z)).
Proof.
  run (@prepare ChainHost.smithFolder (lit "Jane Smith") 0%Z) ltac:(fun v Ep =>
    match v with
    | (Normal ?plan, ?w0) =>
        run (@clickFirstRegex ChainHost.smithFolder (exactRe plan)
               (rangeNode plan) 3000%Z w0)
          ltac:(fun v1 E1 =>
            match v1 with
            | (_, ?w1) =>
                run (@clickFirstRegex ChainHost.smithFolder
                       (lastPlusInitialRe plan) (rangeNode plan) 2000%Z w1)
                  ltac:(fun v2 E2 =>
                    match v2 with
                    | (_, ?w2) =>
                        exact (exact_hit_falls_through ChainHost.smithFolder
                                 (lit "Jane Smith") plan 0%Z w0 w1 w2 Ep E1 E2)
                    end)
            end)
    end).
Defined.

(** X19.  A query that no tier matches holds the batch for more than nine
    seconds: each tier gives up only after its timeout, 3 s for the exact
    tier and 2 s for each of the three fallbacks. *)
Theorem no_match_takes_nine_seconds (H : Host) (plan : tierPlan)
    (w0 w1 w2 w3 w4 : World H) (r1 r2 r3 r4 : outcome bool) :
  clickFirstRegex (exactRe plan) (rangeNode plan) 3000 w0 = (r1, w1) ->
  r1 <> Normal true ->
  clickFirstRegex (lastPlusInitialRe plan) (rangeNode plan) 2000 w1 = (r2, w2) ->
  r2 <> Normal true ->
  clickFirstRegex (lastOnlyRe plan) (rangeNode plan) 2000 w2 = (r3, w3) ->
  r3 <> Normal true ->
  clickFirstRegex (firstLetterRe plan) (rangeNode plan) 2000 w3 = (r4, w4) ->
  r4 <> Normal true ->
  (9000 < now w4 - now w0)%Z.
Proof.
  intros E1 N1 E2 N2 E3 N3 E4 N4.
  pose proof (clickFirstRegex_miss _ _ _ _ _ _ E1 N1).
  pose proof (clickFirstRegex_miss _ _ _ _ _ _ E2 N2).
  pose proof (clickFirstRegex_miss _ _ _ _ _ _ E3 N3).
  pose proof (clickFirstRegex_miss _ _ _ _ _ _ E4 N4).
  lia.
Qed.

Lemma no_match_takes_nine_seconds_witness :
  exists plan w0 w4,
    @prepare ChainHost.emptyFolder (lit "Jane Smith") 0%Z = (Normal plan, w0) /\
    @tryTiers ChainHost.emptyFolder plan (newPerson (lit "Jane Smith"), w0)
    = (Normal tt, (newPerson (lit "Jane Smith"), w4)) /\
    (9000 < w4 - w0)%Z.
Proof.
  run (@prepare ChainHost.emptyFolder (lit "Jane Smith") 0%Z) ltac:(fun v Ep =>
    match v with
    | (Normal ?plan, ?w0) =>
      run (@clickFirstRegex ChainHost.emptyFolder (exactRe plan)
             (rangeNode plan) 3000%Z w0) ltac:(fun v1 E1 =>
      match v1 with (?r1, ?w1) =>
      run (@clickFirstRegex ChainHost.emptyFolder (lastPlusInitialRe plan)
             (rangeNode plan) 2000%Z w1) ltac:(fun v2 E2 =>
      match v2 with (?r2, ?w2) =>
      run (@clickFirstRegex ChainHost.emptyFolder (lastOnlyRe plan)
             (rangeNode plan) 2000%Z w2) ltac:(fun v3 E3 =>
      match v3 with (?r3, ?w3) =>
      run (@clickFirstRegex ChainHost.emptyFolder (firstLetterRe plan)
             (rangeNode plan) 2000%Z w3) ltac:(fun v4 E4 =>
      match v4 with (?r4, ?w4) =>
        exists plan, w0, w4; split; [exact Ep|]; split;
        [ vm_compute; reflexivity
        | exact (no_match_takes_nine_seconds ChainHost.emptyFolder plan
                   w0 w1 w2 w3 w4 r1 r2 r3 r4
                   E1 ltac:(discriminate) E2 ltac:(discriminate)
                   E3 ltac:(discriminate) E4 ltac:(discriminate)) ]
      end) end) end) end)
    end).
Defined.

(** X20.  The script returns [undefined] exactly when no name was
    provided, and then it has not touched the page; for any other list it
    returns the array of entries. *)
Theorem main_undefined_iff_empty (H : Host) (names : list jsstring)
    (w : World H) :
  (names = [] /\ main names w = (Normal None, w)) \/
  (names <> [] /\
   exists out w',
     main names w = (Normal (Some out), w') /\
     List.length out = List.length names).
Proof.
  destruct names as [|n names]; [left; auto|].
  right. split; [discriminate|].
  destruct (forEachPerson_completes (map newPerson (n :: names)) w)
    as (out & w' & E & Hn & _).
  exists out, w'. rewrite (main_nonempty (n :: names) w) by discriminate.
  rewrite E. split; [reflexivity|].
  rewrite <- (length_map name out), Hn, !length_map. reflexivity.
Qed.

(** X21.  The first fallback tier that clicks a node ends the query: the
    tiers after it are not tried, and the entry is left not found. *)
Theorem first_fallback_hit_ends_query (H : Host) (nm : jsstring)
    (plan : tierPlan) (w w0 w1 w2 w3 w4 : World H) (r1 r2 r3 : outcome bool) :
  prepare nm w = (Normal plan, w0) ->
  clickFirstRegex (exactRe plan) (rangeNode plan) 3000 w0 = (r1, w1) ->
  r1 <> Normal true ->
  (clickFirstRegex (lastPlusInitialRe plan) (rangeNode plan) 2000 w1
   = (Normal true, w2) ->
   loopBody (newPerson nm, w) = (Continued, (newPerson nm, w2)))
  /\
  (clickFirstRegex (lastPlusInitialRe plan) (rangeNode plan) 2000 w1 = (r2, w2) ->
   r2 <> Normal true ->
   clickFirstRegex (lastOnlyRe plan) (rangeNode plan) 2000 w2
   = (Normal true, w3) ->
   loopBody (newPerson nm, w) = (Continued, (newPerson nm, w3)))
  /\
  (clickFirstRegex (lastPlusInitialRe plan) (rangeNode plan) 2000 w1 = (r2, w2) ->
   r2 <> Normal true ->
   clickFirstRegex (lastOnlyRe plan) (rangeNode plan) 2000 w2 = (r3, w3) ->
   r3 <> Normal true ->
   clickFirstRegex (firstLetterRe plan) (rangeNode plan) 2000 w3
   = (Normal true, w4) ->
   loopBody (newPerson nm, w) = (Continued, (newPerson nm, w4))).
Proof.
  intros Ep E1 N1.
  rewrite (loopBody_prepared (newPerson nm) w w0 plan Ep).
  unfold tryTiers, bind. rewrite (exactTier_cases _ _ _ _ _ E1).
  replace (match r1 with Normal true => setFound true (newPerson nm)
                    | _ => newPerson nm end)
    with (newPerson nm) by (destruct r1 as [[|]|e| |]; congruence).
  split; [|split].
  - intros E2. rewrite (fallbackTier_cases _ _ _ _ _ _ E2). reflexivity.
  - intros E2 N2 E3. rewrite (fallbackTier_cases _ _ _ _ _ _ E2).
    replace (match r2 with Normal true => Continued | _ => Normal tt end)
      with (@Normal unit tt) by (destruct r2 as [[|]|e| |]; congruence).
    rewrite (fallbackTier_cases _ _ _ _ _ _ E3). reflexivity.
  - intros E2 N2 E3 N3 E4. rewrite (fallbackTier_cases _ _ _ _ _ _ E2).
    replace (match r2 with Normal true => Continued | _ => Normal tt end)
      with (@Normal unit tt) by (destruct r2 as [[|]|e| |]; congruence).
    rewrite (fallbackTier_cases _ _ _ _ _ _ E3).
    replace (match r3 with Normal true => Continued | _ => Normal tt end)
      with (@Normal unit tt) by (destruct r3 as [[|]|e| |]; congruence).
    rewrite (fallbackTier_cases _ _ _ _ _ _ E4). reflexivity.
Qed.

Lemma first_fallback_hit_ends_query_witness :
  @loopBody ChainHost.smithFolder (newPerson (lit "John Smith"), 0%Z)
  = (Continued, (newPerson (lit "John Smith"), 65000%Z)).
Proof.
  run (@prepare ChainHost.smithFolder (lit "John Smith") 0%Z) ltac:(fun v Ep =>
    match v with
    | (Normal ?plan, ?w0) =>
      run (@clickFirstRegex ChainHost.smithFolder (exactRe plan)
             (rangeNode plan) 3000%Z w0) ltac:(fun v1 E1 =>
      match v1 with (?r1, ?w1) =>
      run (@clickFirstRegex ChainHost.smithFolder (lastPlusInitialRe plan)
             (rangeNode plan) 2000%Z w1) ltac:(fun v2 E2 =>
      match v2 with (_, ?w2) =>
        apply (proj1 (first_fallback_hit_ends_query ChainHost.smithFolder
                        (lit "John Smith") plan 0%Z w0 w1 w2 w2 w2
                        r1 r1 r1 Ep E1 ltac:(discriminate)));
        exact E2
      end) end)
    end).
Defined.

(** X22.  The preparation of a query fails in three ways only: the name has
    fewer than two words; the last name does not start with a letter; or
    one of the folders of the path, the four of the base path, the letter
    folder or the range folder, did not show within five seconds.  It never
    fails on building an expression. *)
Theorem prepare_failures (H : Host) (nm : jsstring) (w w' : World H) (e : exn) :
  prepare nm w = (Thrown e, w') ->
  (parsePersonName nm = Thrown e /\ w' = w) \/
  (exists pn,
      parsePersonName nm = Normal pn /\
      computeLetterAndRange (last pn) = Thrown e /\ w' = w) \/
  (exists pn lr folder,
      parsePersonName nm = Normal pn /\
      computeLetterAndRange (last pn) = Normal lr /\
      In folder (BASE_PATH ++ [letterFolder lr; rangeFolder lr]) /\
      e = Error (lit "Timeout waiting for " ++ folder)).
Proof.
  unfold prepare, bind, liftOutcome. intros E.
  pose proof (parsePersonName_settled nm) as Hp.
  destruct (parsePersonName nm) as [pn|e1| |]; simpl in Hp; try contradiction.
  2: { injection E as <- <-. left. auto. }
  right.
  pose proof (computeLetterAndRange_settled (last pn)) as Hc.
  destruct (computeLetterAndRange (last pn)) as [lr|e2| |] eqn:Ec;
    simpl in Hc; try contradiction.
  2: { injection E as <- <-. left. exists pn. auto. }
  right. cbv zeta in E.
  destruct (expandPath (BASE_PATH ++ [letterFolder lr; rangeFolder lr])
              document w) as [r1 w1] eqn:Ex.
  apply expandPath_spec in Ex as [(node & ->) | (folder & Hin & ->)].
  - exfalso. revert E.
    rewrite buildExactRegex_eq, buildLastPlusFirstInitialRegex_eq,
      buildLastOnlyRegex_eq, buildFirstLetterRegex_eq.
    unfold ret. discriminate.
  - injection E as <- <-. exists pn, lr, folder. auto.
Qed.

Lemma prepare_failures_witness :
  exists pn lr folder,
    parsePersonName (lit "Bob Adams") = Normal pn /\
    computeLetterAndRange (last pn) = Normal lr /\
    In folder (BASE_PATH ++ [letterFolder lr; rangeFolder lr]) /\
    fst (@prepare ChainHost.smithFolder (lit "Bob Adams") 0%Z)
    = Thrown (Error (lit "Timeout waiting for " ++ folder)).
Proof.
  run (@prepare ChainHost.smithFolder (lit "Bob Adams") 0%Z) ltac:(fun v Ep =>
    match v with
    | (Thrown ?e, ?w') =>
        destruct (prepare_failures ChainHost.smithFolder (lit "Bob Adams")
                    0%Z w' e Ep)
          as [[Ee _]
             | [(pn & E1 & Ee & _)
               | (pn & lr & folder & E1 & E2 & Hin & Ee)]];
        [ vm_compute in Ee; discriminate Ee
        | vm_compute in E1; injection E1 as <-;
          vm_compute in Ee; discriminate Ee
        | exists pn, lr, folder; rewrite Ep; cbn [fst]; rewrite Ee; auto ]
    end).
Defined.
